(** * role-acl: grant resolution, condition evaluation and attribute filtering

    A shallow embedding of [src/AccessControl.ts] and of the [OrCondition]
    class, together with the helpers of [CommonUtil], [ArrayUtil] and
    [Permission] that they call. *)

From Stdlib Require Import Floats.PrimFloat Floats.FloatOps Floats.FloatAxioms Ascii.
From stdpp Require Import gmap strings list sorting.

#[local] Set Warnings "-register-all,-clear-no-such-hyp".

(** ** Host-language values

    The library passes around untyped values ([any]).  The embedding keeps the
    data part of them: [undefined], [null], booleans, IEEE doubles, strings,
    arrays and plain objects (own enumerable properties in insertion order).
    A string is the sequence of its code units; the strings of the embedding
    are those whose code units are all below 256, one character each. *)

Inductive value : Type :=
| VUndefined
| VNull
| VBool (b : bool)
| VNum (x : PrimFloat.float)
| VStr (s : string)
| VArr (items : list value)
| VObj (props : list (string * value)).

(** [!v] is [negb (truthy v)]: the falsy values are [undefined], [null],
    [false], [+0], [-0], [NaN] and the empty string. *)
Definition truthy (v : value) : bool :=
  match v with
  | VUndefined | VNull => false
  | VBool b => b
  | VNum x => negb (PrimFloat.eqb x 0%float) && PrimFloat.eqb x x
  | VStr s => negb (String.eqb s "")
  | VArr _ | VObj _ => true
  end.

(** ** Errors and results

    Every error the library raises itself is an [AccessControlError]; the
    constructors below are the kinds the specification tells apart.
    [TypeError] is the host error for a property read on [undefined]. *)

Inductive error : Type :=
| InvalidGrantsFormat
| CycleError
| InvalidConditionArgs
| UnknownPredicate
| MissingRequiredField
| TypeError.

Inductive res (A : Type) : Type :=
| Ok (a : A)
| Err (e : error).
Arguments Ok {A} a.
Arguments Err {A} e.

(** A thrown error aborts the rest of the computation: [x ← r; k]. *)
#[global] Instance res_bind : MBind res := λ A B k r,
  match r with
  | Ok a => k a
  | Err e => Err e
  end.

(** ** Objects used as maps

    A plain object keeps its own properties in insertion order (for keys that
    are not array indices), and [Object.keys] walks them in that order; so
    objects used as maps are lists of properties. Reading gives the property
    of that name, writing an existing key replaces its value in place,
    writing a new key appends it, [delete] removes it. *)

Section Obj.
Context {A : Type}.

Fixpoint oget (k : string) (o : list (string * A)) : option A :=
  match o with
  | [] => None
  | (k', v) :: rest => if String.eqb k k' then Some v else oget k rest
  end.

Fixpoint oset (k : string) (v : A) (o : list (string * A)) : list (string * A) :=
  match o with
  | [] => [(k, v)]
  | (k', v') :: rest =>
      if String.eqb k k' then (k', v) :: rest else (k', v') :: oset k v rest
  end.

Fixpoint odelete (k : string) (o : list (string * A)) : list (string * A) :=
  match o with
  | [] => []
  | (k', v') :: rest =>
      if String.eqb k k' then odelete k rest else (k', v') :: odelete k rest
  end.

Definition okeys (o : list (string * A)) : list string := o.*1.

End Obj.

(** ** The grant graph *)

Record Grant : Type := mkGrant {
  resource : string;
  action : string;
  attributes : list string;
  condition : option value
}.

(** An entry of a role's [$extend] map, in its object form
    [{score, condition}]: being an object it is truthy whenever present. *)
Record Extension : Type := mkExtension {
  ext_score : PrimFloat.float;
  ext_condition : option value
}.

(** A role item. Its [score] is a number (an IEEE double) or is missing, in
    which case it reads as [undefined]. *)
Record RoleItem : Type := mkRoleItem {
  grants : list Grant;
  extend : option (list (string * Extension));
  score : option PrimFloat.float
}.

(** Arithmetic on a score that may be missing: [undefined] converts to
    [NaN]. *)
Definition toNumber (x : option PrimFloat.float) : PrimFloat.float :=
  match x with
  | Some n => n
  | None => PrimFloat.nan
  end.

Definition jsSub (x y : option PrimFloat.float) : option PrimFloat.float :=
  Some (PrimFloat.sub (toNumber x) (toNumber y)).

Definition jsAdd (x y : option PrimFloat.float) : option PrimFloat.float :=
  Some (PrimFloat.add (toNumber x) (toNumber y)).

(** The grants object and every [$extend] map are plain objects, so a read
    [o[k]] that finds no own property goes on to [Object.prototype], taken
    here as the host provides it. These are its members; each of them is
    truthy (a function, or the prototype itself for [__proto__]) and has no
    [score]. *)
Definition objectPrototype : list string :=
  ["constructor"; "__defineGetter__"; "__defineSetter__"; "hasOwnProperty";
   "__lookupGetter__"; "__lookupSetter__"; "isPrototypeOf";
   "propertyIsEnumerable"; "toString"; "valueOf"; "__proto__";
   "toLocaleString"].

Definition protoMember (k : string) : bool := bool_decide (k ∈ objectPrototype).

(** [this._grants]: role name to role item. *)
Abbreviation Store := (list (string * RoleItem)).

(** The own entry of [r] in [roleItem.$extend], when the role has an
    [$extend] map. *)
Definition extension (item : RoleItem) (r : string) : option Extension :=
  ext ← extend item; oget r ext.

(** [roleItem.$extend[r]] is truthy, for a role that has an [$extend] map: the
    map has an own entry for [r], or [r] names a member of
    [Object.prototype]. *)
Definition lists (item : RoleItem) (r : string) : bool :=
  match extend item with
  | None => false
  | Some ext => bool_decide (is_Some (oget r ext)) || protoMember r
  end.

Definition extendKeys (item : RoleItem) : list string :=
  match extend item with
  | None => []
  | Some ext => okeys ext
  end.

(** A role that inherits nothing has the empty sum as its score. *)
Definition newRole : RoleItem :=
  {| grants := []; extend := None; score := Some 0%float |}.

(** ** Queries and permissions *)

Record IQueryInfo : Type := mkQuery {
  q_role : list string;
  q_resource : option string;
  q_action : option string;
  q_possession : option string;
  q_context : value
}.

Definition withRoles (q : IQueryInfo) (roles : list string) : IQueryInfo :=
  {| q_role := roles;
     q_resource := q_resource q;
     q_action := q_action q;
     q_possession := q_possession q;
     q_context := q_context q |}.

(** Modelled from the spec: the [Permission] class is not among the sources.
    It is built from the query and the resolved attribute union, and
    [granted] is [attributes.length > 0]. *)
Record Permission : Type := mkPermission {
  p_query : IQueryInfo;
  p_attributes : list string
}.

(** Modelled from the spec: the [granted] property of the missing
    [Permission] class, [attributes.length > 0]. *)
Definition granted (p : Permission) : bool :=
  bool_decide (0 < length (p_attributes p)).

(** ** Mutating methods

    A method runs on the store of its instance and either completes or throws;
    a throw keeps whatever the method had written before it. *)

Inductive outcome : Type :=
| Done (g : Store)
| Thrown (e : error) (g : Store).

Definition final (o : outcome) : Store :=
  match o with
  | Done g => g
  | Thrown _ g => g
  end.

(** [list.forEach(body)] over the store. *)
Fixpoint forEach {A : Type} (l : list A) (body : A → Store → outcome)
    (g : Store) : outcome :=
  match l with
  | [] => Done g
  | a :: rest =>
      match body a g with
      | Done g' => forEach rest body g'
      | Thrown e g' => Thrown e g'
      end
  end.

(** [Array.prototype.sort()] on strings, as [removeRoles] calls it on the
    roles it is given: ascending order of the code units, a proper prefix
    first. The characters of a string of the embedding are its code units, so
    this is the order of [String.leb]. *)
Fixpoint insert_sorted (s : string) (l : list string) : list string :=
  match l with
  | [] => [s]
  | x :: rest => if String.leb s x then s :: l else x :: insert_sorted s rest
  end.

Definition sort (l : list string) : list string := foldr insert_sorted [] l.

(** ** Role expansion *)

Section Traversal.

(** The roles a role inherits from; finding them may throw. *)
Variable succ : string → res (list string).

(** Modelled from the spec: the role-expansion traversal of [CommonUtil]
    (used by [extendRole] and by the queries) is missing. It walks [$extend]
    from a starting list of roles with a visited list, so that every
    reachable role is collected once and a cycle in the graph is harmless.
    [fuel] bounds the number of roles still to be visited: it only decreases
    when a role joins [visited]. *)
Fixpoint traverse (fuel : nat) (visited work : list string) : res (list string) :=
  match fuel with
  | O => Ok visited
  | S fuel' =>
      (fix scan (work : list string) : res (list string) :=
         match work with
         | [] => Ok visited
         | r :: rest =>
             if bool_decide (r ∈ visited) then scan rest
             else next ← succ r; traverse fuel' (visited ++ [r]) (next ++ rest)
         end) work
  end.

(** What the traversal is to compute: [s] is inherited directly from [r], and
    the roles reachable from a list of roles. *)
Definition edge (r s : string) : Prop := ∃ l, succ r = Ok l ∧ s ∈ l.

Definition reachable (roles : list string) (v : string) : Prop :=
  ∃ w, w ∈ roles ∧ rtc edge w v.

End Traversal.

(** All role names a traversal of [g] from [roles] can meet; one more than
    their number is fuel enough. *)
Definition universe (g : Store) (roles : list string) : list string :=
  roles ++ (g ≫= λ p, extendKeys p.2).

(** ** CommonUtil

    The helper class is not among the sources: what [AccessControl] and
    [OrCondition] call of it is modelled from the specification. *)

Module CommonUtil.

(** Modelled from the spec: [CommonUtil.type] is missing; it names the kind of
    a value in lower case ("object", "array", ...), which is how [setGrants]
    and [OrCondition.evaluate] compare its result. *)
Definition type (v : value) : string :=
  match v with
  | VUndefined => "undefined"
  | VNull => "null"
  | VBool _ => "boolean"
  | VNum _ => "number"
  | VStr _ => "string"
  | VArr _ => "array"
  | VObj _ => "object"
  end.

(** *** Flat grant records *)

(** Reading the fields of a flat-list record. *)
Definition stringField (k : string) (props : list (string * value)) : option string :=
  match oget k props with
  | Some (VStr s) => Some s
  | _ => None
  end.

Definition asString (v : value) : option string :=
  match v with
  | VStr s => Some s
  | _ => None
  end.

Definition attributesField (props : list (string * value)) : list string :=
  match oget "attributes" props with
  | Some (VArr items) => omap asString items
  | _ => ["*"]
  end.

Definition conditionField (props : list (string * value)) : option value :=
  match oget "condition" props with
  | None | Some VUndefined => None
  | Some c => Some c
  end.

Definition addGrant (role : string) (gr : Grant) (g : Store) : Store :=
  let item := default newRole (oget role g) in
  oset role {| grants := grants item ++ [gr];
               extend := extend item;
               score := score item |} g.

(** Modelled from the spec: [CommonUtil.commitToGrants] is missing. A
    flat-list record carries its own [role], [resource] and [action]; a record
    that misses one of them is refused with [InvalidGrantsFormat];
    [attributes] defaults to ["*"]; the role is created on its first grant and
    the grants of one role accumulate. *)
Definition commitToGrants (item : value) (g : Store) : outcome :=
  match item with
  | VObj props =>
      match stringField "role" props,
            stringField "resource" props,
            stringField "action" props with
      | Some role, Some resource, Some action =>
          Done (addGrant role
                  {| resource := resource;
                     action := action;
                     attributes := attributesField props;
                     condition := conditionField props |} g)
      | _, _, _ => Thrown InvalidGrantsFormat g
      end
  | _ => Thrown InvalidGrantsFormat g
  end.

(** *** Role extension *)

(** Modelled from the spec: the unconditional role expansion that
    [CommonUtil.extendRole] checks cycles with is missing. [extenders] are the
    roles [role] inherits from directly, conditions apart. *)
Definition extenders (g : Store) (role : string) : res (list string) :=
  match oget role g with
  | None => Ok []
  | Some item => Ok (extendKeys item)
  end.

(** Modelled from the spec (missing as above): every role reachable from
    [roles] through [$extend], conditions apart. *)
Definition flatRoles (g : Store) (roles : list string) : res (list string) :=
  traverse (extenders g) (S (length (universe g roles))) [] roles.

(** Modelled from the spec (missing as above): extending [role] by [extender]
    would make [role] inherit from itself. *)
Definition wouldCycle (g : Store) (role extender : string) : bool :=
  match flatRoles g [extender] with
  | Ok reached => bool_decide (role ∈ reached)
  | Err _ => true
  end.

(** Modelled from the spec: [CommonUtil.extendRole] is missing. For every
    pair of a role and an extender it fails with [CycleError] when the
    extender does not exist or when the role is among the roles the extender
    reaches (itself included); otherwise it creates the role if needed, adds
    the extender's score plus one to the role's score and records the
    extender with the condition. It returns the new graph; a failure leaves
    the graph it was given as it was. *)
Definition extendPair (condition : option value) (role extender : string)
    (g : Store) : res Store :=
  match oget extender g with
  | None => Err CycleError
  | Some extItem =>
      if wouldCycle g role extender then Err CycleError
      else
        let item := default newRole (oget role g) in
        Ok (oset role
              {| grants := grants item;
                 extend := Some (oset extender
                                   {| ext_score :=
                                        PrimFloat.add (toNumber (score extItem)) 1%float;
                                      ext_condition := condition |}
                                   (default [] (extend item)));
                 score := jsAdd (score item)
                            (jsAdd (score extItem) (Some 1%float)) |} g)
  end.

(** A loop over a list that stops at the first error. *)
Fixpoint foldRes {A : Type} (l : list A) (body : A → Store → res Store)
    (g : Store) : res Store :=
  match l with
  | [] => Ok g
  | a :: rest => g' ← body a g; foldRes rest body g'
  end.

(** Modelled from the spec: [CommonUtil.extendRole] itself (missing), over
    every pair of a role and an extender. *)
Definition extendRole (g : Store) (roles extenderRoles : list string)
    (condition : option value) : res Store :=
  foldRes roles
    (λ role, foldRes extenderRoles (λ extender, extendPair condition role extender))
    g.

(** *** Queries *)

Section Queries.

(** [ConditionUtil.evaluate], the dispatcher over condition expressions, and
    the match of a grant against the resource and action of a query (which
    rests on the glob matcher) are taken as they come. *)
Variable ConditionUtil_evaluate : value → value → res bool.
Variable grantMatches : option string → option string → option string → Grant → bool.

Definition matchesQuery (q : IQueryInfo) (gr : Grant) : bool :=
  grantMatches (q_resource q) (q_action q) (q_possession q) gr.

(** Modelled from the spec: the condition check of the missing resolver. A
    grant or an extension applies when it carries no condition or when its
    condition accepts the context. *)
Definition accepts (condition : option value) (context : value) : res bool :=
  match condition with
  | None => Ok true
  | Some expr => ConditionUtil_evaluate expr context
  end.

(** Modelled from the spec (missing resolver): the entries of an [$extend]
    map whose condition accepts the context. *)
Fixpoint acceptedKeys (ext : list (string * Extension)) (context : value)
    : res (list string) :=
  match ext with
  | [] => Ok []
  | (r, e) :: rest =>
      b ← accepts (ext_condition e) context;
      l ← acceptedKeys rest context;
      Ok (if b : bool then r :: l else l)
  end.

(** Modelled from the spec (missing resolver): the roles [role] inherits from
    while their condition holds. *)
Definition inherited (g : Store) (context : value) (role : string)
    : res (list string) :=
  match oget role g with
  | None => Ok []
  | Some item =>
      match extend item with
      | None => Ok []
      | Some ext => acceptedKeys ext context
      end
  end.

(** Modelled from the spec (missing resolver): the expansion of the queried
    roles for a context. *)
Definition expandRoles (g : Store) (context : value) (roles : list string)
    : res (list string) :=
  traverse (inherited g context) (S (length (universe g roles))) [] roles.

(** Modelled from the spec (missing resolver): the attribute lists of the
    grants of a role that match the query and whose condition accepts its
    context. *)
Fixpoint acceptedAttrs (q : IQueryInfo) (grs : list Grant) : res (list (list string)) :=
  match grs with
  | [] => Ok []
  | gr :: rest =>
      if matchesQuery q gr then
        b ← accepts (condition gr) (q_context q);
        l ← acceptedAttrs q rest;
        Ok (if b : bool then attributes gr :: l else l)
      else acceptedAttrs q rest
  end.

Definition roleAttrs (g : Store) (q : IQueryInfo) (role : string)
    : res (list (list string)) :=
  match oget role g with
  | None => Ok []
  | Some item => acceptedAttrs q (grants item)
  end.

Fixpoint collect (g : Store) (q : IQueryInfo) (roles : list string)
    : res (list (list string)) :=
  match roles with
  | [] => Ok []
  | r :: rest =>
      l ← roleAttrs g q r;
      ls ← collect g q rest;
      Ok (l ++ ls)
  end.

(** Modelled from the spec (missing resolver): union of attribute lists, where
    a pattern already present is not added again. *)
Definition unionAttrs (acc attrs : list string) : list string :=
  fold_left (λ acc a, if bool_decide (a ∈ acc) then acc else acc ++ [a]) attrs acc.

Definition unionAll (ls : list (list string)) : list string :=
  fold_left unionAttrs ls [].

(** Modelled from the spec: [CommonUtil.getUnionAttrsOfRoles] is missing. It
    expands the queried roles, keeps of each reachable role the grants that
    match the query and whose condition accepts the context, and unions
    their attributes. *)
Definition getUnionAttrsOfRoles (g : Store) (q : IQueryInfo) : res (list string) :=
  roles ← expandRoles g (q_context q) (q_role q);
  ls ← collect g q roles;
  Ok (unionAll ls).

(** What the union is to hold: an attribute of a grant that matches the query,
    whose condition accepts the context, and that belongs to a role reachable
    from the queried roles by extension. *)
Definition allowedAttribute (g : Store) (q : IQueryInfo) (a : string) : Prop :=
  ∃ r item gr,
    reachable (inherited g (q_context q)) (q_role q) r
    ∧ oget r g = Some item
    ∧ gr ∈ grants item
    ∧ matchesQuery q gr = true
    ∧ accepts (condition gr) (q_context q) = Ok true
    ∧ a ∈ attributes gr.

End Queries.

(** *** Attribute filtering *)

Section Filter.

(** The glob matcher [matchGlob(pattern, candidate)] is a capability the
    filter is given. *)
Variable matchGlob : string → string → bool.

(** Modelled from the spec: the attribute filter behind the missing
    [CommonUtil.filterAll]. A pattern may carry the negation marker [!]
    before its notation. *)
Definition negated (p : string) : bool :=
  match p with
  | String "!"%char _ => true
  | _ => false
  end.

Definition notation (p : string) : string :=
  match p with
  | String "!"%char rest => rest
  | _ => p
  end.

(** Modelled from the spec (missing filter): the order of specificity,
    wildcard-only patterns first, negated patterns next, exact or dotted
    patterns last; the sort keeps the given order within a class. *)
Fixpoint wildcardOnly (p : string) : bool :=
  match p with
  | EmptyString => true
  | String c rest => (Ascii.eqb c "*"%char || Ascii.eqb c "."%char) && wildcardOnly rest
  end.

Definition specificity (p : string) : nat :=
  if negated p then 1 else if wildcardOnly p then 0 else 2.

Fixpoint insertBySpecificity (p : string) (l : list string) : list string :=
  match l with
  | [] => [p]
  | x :: rest =>
      if specificity p <=? specificity x then p :: l
      else x :: insertBySpecificity p rest
  end.

Definition sortBySpecificity (l : list string) : list string :=
  foldr insertBySpecificity [] l.

(** Modelled from the spec (missing filter): the cumulative application of
    the patterns. [paths] holds the dotted path of a key and those of its
    ancestors; a pattern covers the key when it matches one of them. The
    patterns are applied in order and the last one that covers the key
    decides. *)
Definition admitted (patterns : list string) (paths : list string) : bool :=
  fold_left
    (λ adm p, if existsb (matchGlob (notation p)) paths then negb (negated p) else adm)
    patterns false.

Definition childPath (parent : option string) (k : string) : string :=
  match parent with
  | None => k
  | Some p => p +:+ "." +:+ k
  end.

Definition nonEmptyObject (v : value) : bool :=
  match v with
  | VObj (_ :: _) => true
  | _ => false
  end.

(** Modelled from the spec (missing filter): the walk over the nested keys. A
    key is kept when the patterns admit it, or when it is an object of which
    some key is kept. *)
Fixpoint filterValue (patterns : list string) (parent : option string)
    (paths : list string) (v : value) {struct v} : value :=
  match v with
  | VObj props =>
      VObj ((fix keep (ps : list (string * value)) : list (string * value) :=
               match ps with
               | [] => []
               | (k, x) :: rest =>
                   let path := childPath parent k in
                   let x' := filterValue patterns (Some path) (path :: paths) x in
                   if admitted patterns (path :: paths) || nonEmptyObject x'
                   then (k, x') :: keep rest
                   else keep rest
               end) props)
  | _ => v
  end.

(** Modelled from the spec (missing filter): the patterns an [attributes]
    argument stands for; an empty string is no pattern. *)
Definition patternsOf (attributes : value) : list string :=
  match attributes with
  | VArr items => filter (λ s, s ≠ "") (omap asString items)
  | VStr s => if decide (s = "") then [] else [s]
  | _ => []
  end.

(** Modelled from the spec: [CommonUtil.filter] (missing). No pattern gives
    the empty object; otherwise the patterns are sorted by specificity and
    the object is walked. *)
Definition filter (object attributes : value) : value :=
  match patternsOf attributes with
  | [] => VObj []
  | patterns => filterValue (sortBySpecificity patterns) None [] object
  end.

(** Modelled from the spec: [CommonUtil.filterAll] (missing). Arrays of data
    objects are filtered element-wise. *)
Definition filterAll (arrOrObj attributes : value) : value :=
  match arrOrObj with
  | VArr items => VArr (map (λ o, filter o attributes) items)
  | _ => filter arrOrObj attributes
  end.

End Filter.

(** Modelled from the spec: the glob matcher is a capability from outside the
    repository. This one is to run the filter with: [*] stands for any run of
    characters, every other character for itself. *)
Fixpoint starGlob (pattern : string) : string → bool :=
  match pattern with
  | EmptyString => λ s, bool_decide (s = "")
  | String c pattern' =>
      if Ascii.eqb c "*"%char then
        fix star (s : string) : bool :=
          starGlob pattern' s
          || match s with
             | EmptyString => false
             | String _ s' => star s'
             end
      else
        λ s, match s with
             | EmptyString => false
             | String d s' => Ascii.eqb c d && starGlob pattern' s'
             end
  end.

End CommonUtil.

Module ArrayUtil.

(** Modelled from the spec: [ArrayUtil.toArray] is not among the sources; an
    array is taken as it is and a mapping of sub-expressions stands for the
    one-element list holding it. *)
Definition toArray (v : value) : list value :=
  match v with
  | VArr items => items
  | _ => [v]
  end.

End ArrayUtil.

(** ** OrCondition *)

Module OrCondition.
Section Evaluate.

(** [ConditionUtil.evaluate], the dispatcher over condition expressions, is
    not among the sources: the class is embedded over any such evaluator. *)
Variable ConditionUtil_evaluate : value → value → res bool.

(** The [for ... of] loop: [result = result || await evaluate(c, context)].
    Once [result] is true the right operand is no longer evaluated. *)
Fixpoint loop (conditions : list value) (context : value) (result : bool)
    : res bool :=
  match conditions with
  | [] => Ok result
  | condition :: rest =>
      if result then loop rest context true
      else r ← ConditionUtil_evaluate condition context; loop rest context r
  end.

Definition evaluate (args context : value) : res bool :=
  if negb (truthy args) then Ok true
  else if negb (truthy context) then Ok false
  else if negb (String.eqb (CommonUtil.type args) "array")
          && negb (String.eqb (CommonUtil.type args) "object")
  then Err InvalidConditionArgs
  else loop (ArrayUtil.toArray args) context false.

End Evaluate.
End OrCondition.

(** ** AccessControl *)

Module AccessControl.
Section Methods.

(** What the class is given from outside the sources: the reader of the object
    shape of the grants ([CommonUtil.normalizeGrantsObject]), the condition
    dispatcher, the grant matcher and the glob matcher. *)
Variable normalizeGrantsObject : list (string * value) → res Store.
Variable ConditionUtil_evaluate : value → value → res bool.
Variable grantMatches : option string → option string → option string → Grant → bool.
Variable matchGlob : string → string → bool.

(** [setGrants]: the store is emptied first, then filled according to the
    type of the input; any other type falls through both branches. *)
Definition setGrants (grantsObject : value) (_ : Store) : outcome :=
  let g : Store := [] in
  let type := CommonUtil.type grantsObject in
  if String.eqb type "object" then
    match grantsObject with
    | VObj props =>
        match normalizeGrantsObject props with
        | Ok g' => Done g'
        | Err e => Thrown e g
        end
    | _ => Done g
    end
  else if String.eqb type "array" then
    match grantsObject with
    | VArr items => forEach items CommonUtil.commitToGrants g
    | _ => Done g
    end
  else Done g.

Definition reset (_ : Store) : outcome := Done [].

(** [extendRole]: awaits [CommonUtil.extendRole] on the store. *)
Definition extendRole (roles extenderRoles : list string)
    (condition : option value) (g : Store) : outcome :=
  match CommonUtil.extendRole g roles extenderRoles condition with
  | Ok g' => Done g'
  | Err e => Thrown e g
  end.

(** [this._grants[r].score]: the score of the own role item of [r]; without
    an own item, [this._grants[r]] is the member of [Object.prototype] of that
    name, which has no [score], or is [undefined], and then the read throws. *)
Definition removedScoreOf (r : string) (g : Store) : res (option PrimFloat.float) :=
  match oget r g with
  | Some removed => Ok (score removed)
  | None => if protoMember r then Ok None else Err TypeError
  end.

(** The body of the inner [forEach] of [removeRoles], for the role item of
    [role] and a role [r] to remove:
    [if (roleItem.$extend[r]) { roleItem.score -= this._grants[r].score;
                                delete roleItem.$extend[r]; }].
    Both reads go through the prototype chain; [delete] removes an own entry
    only. *)
Definition strip (role r : string) (g : Store) : outcome :=
  match oget role g with
  | None => Thrown TypeError g
  | Some roleItem =>
      match extend roleItem with
      | None => Done g
      | Some ext =>
          if lists roleItem r then
            match removedScoreOf r g with
            | Err e => Thrown e g
            | Ok removed =>
                Done (oset role
                        {| grants := grants roleItem;
                           extend := Some (odelete r ext);
                           score := jsSub (score roleItem) removed |} g)
            end
          else Done g
      end
  end.

(** The callback given to [_each]: [if (roleItem.$extend) { ... }]. *)
Definition stripAll (rolesToRemove : list string) (role : string) (g : Store)
    : outcome :=
  match oget role g with
  | None => Thrown TypeError g
  | Some roleItem =>
      match extend roleItem with
      | None => Done g
      | Some _ => forEach rolesToRemove (strip role) g
      end
  end.

(** [removeRoles]: the roles given are sorted; the first loop walks the keys
    the store has when it starts ([_each]) and strips the roles to remove from
    every role that has an [$extend]; the second loop deletes them from the
    store. *)
Definition removeRoles (roles : list string) (g : Store) : outcome :=
  let rolesToRemove := sort roles in
  match forEach (okeys g) (stripAll rolesToRemove) g with
  | Done g' => forEach rolesToRemove (λ role g'', Done (odelete role g'')) g'
  | Thrown e g' => Thrown e g'
  end.

(** [getRoles]: [Object.keys(this._grants)]. *)
Definition getRoles (g : Store) : list string := okeys g.


(** [permission]: a [Permission] built from the query and the attribute union
    [CommonUtil.getUnionAttrsOfRoles] resolves for it. *)
Definition permission (queryInfo : IQueryInfo) (g : Store) : res Permission :=
  attrs ← CommonUtil.getUnionAttrsOfRoles ConditionUtil_evaluate grantMatches
            g queryInfo;
  Ok {| p_query := queryInfo; p_attributes := attrs |}.

(** [filter]: the static method returns [CommonUtil.filterAll(data, attributes)]. *)
Definition filter (data attributes : value) : value :=
  CommonUtil.filterAll matchGlob data attributes.

End Methods.
End AccessControl.


(** ** What removeRoles may do to the store

    [trimmed g item item'] relates a role item before and after part of a run
    of [removeRoles] on the store [g]: the grants are the same, the [$extend]
    map is there or not as before, and it has lost entries at most, none of
    them for a name that [this._grants] of [g] cannot be read at. *)

Definition trimmed (g : Store) (item item' : RoleItem) : Prop :=
  grants item' = grants item
  ∧ (is_Some (extend item') ↔ is_Some (extend item))
  ∧ (∀ r, extension item' r = None ∨ extension item' r = extension item r)
  ∧ (∀ r, oget r g = None → protoMember r = false →
          extension item' r = extension item r).

Definition trimmedStore (g g' : Store) : Prop :=
  okeys g' = okeys g
  ∧ ∀ k item, oget k g = Some item →
              ∃ item', oget k g' = Some item' ∧ trimmed g item item'.

(** A role of the store has in its [$extend] an entry for a role that is to
    be removed and that [this._grants] reads as [undefined]: the store does
    not hold it and [Object.prototype] has no member of that name. *)
Definition dangling (g : Store) (roles : list string) : Prop :=
  ∃ k item r, oget k g = Some item ∧ r ∈ roles
              ∧ is_Some (extension item r)
              ∧ oget r g = None ∧ protoMember r = false.

(** [this._grants[r].score] where that read does not throw: the score of the
    role item of [r], [undefined] for a member of [Object.prototype]. *)
Definition scoreOf (g : Store) (r : string) : option PrimFloat.float :=
  item ← oget r g; score item.

(** The score [removeRoles] leaves a role item with: from its score it takes,
    in the order of the sorted roles, the score of each role that the item
    lists in its [$extend]. *)
Definition takeScore (g : Store) (item : RoleItem)
    (acc : option PrimFloat.float) (r : string) : option PrimFloat.float :=
  if lists item r then jsSub acc (scoreOf g r) else acc.

Definition scoreAfter (g : Store) (item : RoleItem) (roles : list string)
    : option PrimFloat.float :=
  fold_left (takeScore g item) (sort roles) (score item).

(** While the first loop of [removeRoles] runs on [g], the items of the roles
    to remove stay as they are in [g]. *)
Definition removedKept (g : Store) (roles : list string) (g2 : Store) : Prop :=
  ∀ r, r ∈ roles → oget r g2 = oget r g.

(** ** A sample graph

    Two roles, [admin] inheriting from [user] as long as the context is
    truthy, with an evaluator that takes a condition for its truth value
    and a matcher that compares resource and action literally. *)

Module Sample.

Definition evaluator (expr context : value) : res bool :=
  match expr with
  | VStr "context" => Ok (truthy context)
  | VBool b => Ok b
  | _ => Err UnknownPredicate
  end.

Definition matcher (res act _possession : option string) (gr : Grant) : bool :=
  bool_decide (res = Some (resource gr)) && bool_decide (act = Some (action gr)).

Definition store : Store :=
  [("user",
    {| grants := [ {| resource := "video"; action := "read";
                      attributes := ["title"; "!id"]; condition := None |};
                   {| resource := "video"; action := "read";
                      attributes := ["owner"]; condition := Some (VBool false) |} ];
       extend := None;
       score := Some 0%float |});
   ("admin",
    {| grants := [ {| resource := "video"; action := "read";
                      attributes := ["*"; "title"]; condition := None |} ];
       extend := Some [("user", {| ext_score := 1%float;
                                   ext_condition := Some (VStr "context") |})];
       score := Some 1%float |})].

Definition query (roles : list string) (resource : string) : IQueryInfo :=
  {| q_role := roles;
     q_resource := Some resource;
     q_action := Some "read";
     q_possession := None;
     q_context := VObj [] |}.

End Sample.

(* ================================================================== *)
(** * Properties *)
(* ================================================================== *)

(** ** OrCondition.evaluate *)

Section OrConditionFacts.

Variable ev : value → value → res bool.

Lemma or_loop_true conditions context :
  OrCondition.loop ev conditions context true = Ok true.
Proof. induction conditions as [|c cs IH]; simpl; auto. Qed.

Lemma or_evaluate_falsy args context :
  truthy args = false → OrCondition.evaluate ev args context = Ok true.
Proof. intros H. unfold OrCondition.evaluate. now rewrite H. Qed.

Lemma or_evaluate_no_context args context :
  truthy args = true → truthy context = false →
  OrCondition.evaluate ev args context = Ok false.
Proof. intros Ha Hc. unfold OrCondition.evaluate. now rewrite Ha, Hc. Qed.

Lemma or_evaluate_checked args context :
  truthy args = true → truthy context = true →
  OrCondition.evaluate ev args context =
    if negb (String.eqb (CommonUtil.type args) "array")
       && negb (String.eqb (CommonUtil.type args) "object")
    then Err InvalidConditionArgs
    else OrCondition.loop ev (ArrayUtil.toArray args) context false.
Proof. intros Ha Hc. unfold OrCondition.evaluate. now rewrite Ha, Hc. Qed.

End OrConditionFacts.

(** C4. An OR over an empty operand list is false (with a context present
    the loop runs over no operand and returns its initial [false]), and
    evaluating with no condition expression at all is true: both whatever
    evaluator the operands would be given to. *)
Theorem or_empty_list_false_no_args_true :
  ∀ (ev : value → value → res bool) (context : value),
    (truthy context = true →
     OrCondition.evaluate ev (VArr []) context = Ok false)
    ∧ OrCondition.evaluate ev VUndefined context = Ok true.
Proof.
  intros ev context. split.
  - intros Hc. rewrite or_evaluate_checked by done. reflexivity.
  - apply or_evaluate_falsy. reflexivity.
Qed.

Lemma or_empty_list_false_no_args_true_witness :
  OrCondition.evaluate (λ _ _, Err UnknownPredicate) (VArr []) (VObj []) = Ok false
  ∧ OrCondition.evaluate (λ _ _, Err UnknownPredicate) VUndefined (VObj []) = Ok true.
Proof.
  destruct (or_empty_list_false_no_args_true
              (λ _ _, Err UnknownPredicate) (VObj [])) as [H1 H2].
  split; [apply H1; reflexivity | exact H2].
Defined.

(** A scalar that is falsy never reaches the type check. *)
Example or_zero_is_true :
  OrCondition.evaluate (λ _ _, Ok false) (VNum 0%float) (VObj []) = Ok true.
Proof. reflexivity. Qed.

(** C5, as stated, fails: a scalar [args] does not always raise
    [InvalidConditionArgs].  The number [0] is falsy, so the first guard
    answers [true] although a context is present. *)
Lemma or_scalar_args_not_always_error :
  ¬ (∀ (ev : value → value → res bool) (args context : value),
        CommonUtil.type args ≠ "array" → CommonUtil.type args ≠ "object" →
        OrCondition.evaluate ev args context = Err InvalidConditionArgs).
Proof.
  intros H.
  specialize (H (λ _ _, Ok false) (VNum 0%float) (VObj [])).
  discriminate H; discriminate.
Qed.

(** C5, amended. A truthy [args] that is neither an array nor an object,
    evaluated with a context present, raises [InvalidConditionArgs]. *)
Theorem or_truthy_scalar_args_error :
  ∀ (ev : value → value → res bool) (args context : value),
    CommonUtil.type args ≠ "array" → CommonUtil.type args ≠ "object" →
    truthy args = true → truthy context = true →
    OrCondition.evaluate ev args context = Err InvalidConditionArgs.
Proof.
  intros ev args context Harr Hobj Ha Hc.
  rewrite or_evaluate_checked by done.
  destruct args; simpl in *; congruence.
Qed.

Lemma or_truthy_scalar_args_error_witness :
  OrCondition.evaluate (λ _ _, Ok true) (VStr "admin") (VObj []) =
    Err InvalidConditionArgs.
Proof.
  apply or_truthy_scalar_args_error; first [discriminate | reflexivity].
Defined.

(** C10. The guards of [OrCondition.evaluate] come in a fixed order, before
    the type of [args] is looked at: a falsy [args] gives [true] whatever the
    context; a truthy [args] with no context gives [false], also for a scalar,
    and whatever the evaluator of the operands is (it is not called); only
    with both present is the type of [args] checked and the operand list
    run through the loop. *)
Theorem or_guard_precedence :
  ∀ (ev : value → value → res bool) (args context : value),
    (truthy args = false → OrCondition.evaluate ev args context = Ok true)
    ∧ (truthy args = true → truthy context = false →
       OrCondition.evaluate ev args context = Ok false)
    ∧ (truthy args = true → truthy context = true →
       (CommonUtil.type args ≠ "array" ∧ CommonUtil.type args ≠ "object" →
        OrCondition.evaluate ev args context = Err InvalidConditionArgs)
       ∧ (CommonUtil.type args = "array" ∨ CommonUtil.type args = "object" →
          OrCondition.evaluate ev args context =
            OrCondition.loop ev (ArrayUtil.toArray args) context false)).
Proof.
  intros ev args context. split; [|split].
  - apply or_evaluate_falsy.
  - apply or_evaluate_no_context.
  - intros Ha Hc. split.
    + intros [Harr Hobj]. rewrite or_evaluate_checked by done.
      destruct args; simpl in *; congruence.
    + intros Hty. rewrite or_evaluate_checked by done.
      destruct Hty as [-> | ->]; reflexivity.
Qed.

Lemma or_guard_precedence_witness :
  OrCondition.evaluate (λ _ _, Err UnknownPredicate) (VStr "") VUndefined = Ok true
  ∧ OrCondition.evaluate (λ _ _, Err UnknownPredicate) (VNum 7%float) VUndefined
    = Ok false
  ∧ OrCondition.evaluate (λ _ _, Err UnknownPredicate) (VNum 7%float) (VObj [])
    = Err InvalidConditionArgs
  ∧ OrCondition.evaluate (λ _ _, Ok true) (VArr [VNull; VNull]) (VObj [])
    = Ok true.
Proof.
  split; [|split; [|split]].
  - apply (or_guard_precedence (λ _ _, Err UnknownPredicate) (VStr "") VUndefined).
    reflexivity.
  - apply (or_guard_precedence (λ _ _, Err UnknownPredicate) (VNum 7%float) VUndefined);
      reflexivity.
  - apply (or_guard_precedence (λ _ _, Err UnknownPredicate) (VNum 7%float) (VObj []));
      first [reflexivity | split; discriminate].
  - destruct (or_guard_precedence (λ _ _, Ok true) (VArr [VNull; VNull]) (VObj []))
      as (_ & _ & H).
    destruct (H eq_refl eq_refl) as [_ H2]. rewrite H2 by (left; reflexivity).
    reflexivity.
Defined.

(** ** Objects used as maps *)

Section ObjFacts.
Context {A : Type}.
Implicit Types (o : list (string * A)) (k : string) (v : A).

Lemma oget_elem k v o : oget k o = Some v → (k, v) ∈ o.
Proof.
  induction o as [|[k' v'] o IH]; simpl; [done|].
  destruct (String.eqb_spec k k') as [->|Hne].
  - intros [= ->]. left.
  - intros H. right. auto.
Qed.

Lemma oget_oset_eq k v o : oget k (oset k v o) = Some v.
Proof.
  induction o as [|[k' v'] o IH]; simpl.
  - now rewrite String.eqb_refl.
  - destruct (String.eqb_spec k k') as [->|Hne]; simpl.
    + now rewrite String.eqb_refl.
    + destruct (String.eqb_spec k k'); [done|apply IH].
Qed.

Lemma oget_oset_ne k k' v o : k ≠ k' → oget k' (oset k v o) = oget k' o.
Proof.
  intros Hne. induction o as [|[k0 v0] o IH]; simpl.
  - destruct (String.eqb_spec k' k); [congruence|done].
  - destruct (String.eqb_spec k k0) as [->|Hk]; simpl.
    + destruct (String.eqb_spec k' k0); [congruence|done].
    + destruct (String.eqb_spec k' k0); [done|apply IH].
Qed.

Lemma oget_odelete_ne k k' o : k ≠ k' → oget k' (odelete k o) = oget k' o.
Proof.
  intros Hne. induction o as [|[k0 v0] o IH]; simpl; [done|].
  destruct (String.eqb_spec k k0) as [->|Hk]; simpl.
  - destruct (String.eqb_spec k' k0); [congruence|apply IH].
  - destruct (String.eqb_spec k' k0); [done|apply IH].
Qed.

Lemma oget_odelete_eq k o : oget k (odelete k o) = None.
Proof.
  induction o as [|[k0 v0] o IH]; simpl; [done|].
  destruct (String.eqb_spec k k0) as [->|Hk]; simpl; [done|].
  destruct (String.eqb_spec k k0); [done|apply IH].
Qed.

Lemma okeys_oset k v o :
  okeys (oset k v o) = okeys o ∨ okeys (oset k v o) = okeys o ++ [k].
Proof.
  unfold okeys. induction o as [|[k0 v0] o IH]; [now right|].
  cbn [oset]. destruct (String.eqb_spec k k0) as [->|Hk].
  - now left.
  - rewrite !fmap_cons. destruct IH as [IH | IH]; rewrite IH; auto.
Qed.

Lemma oget_okeys k v o : oget k o = Some v → k ∈ okeys o.
Proof.
  intros H%oget_elem. unfold okeys.
  apply list_elem_of_fmap. now exists (k, v).
Qed.

End ObjFacts.

(** ** setGrants *)

Lemma commitToGrants_error item g e g' :
  CommonUtil.commitToGrants item g = Thrown e g' → e = InvalidGrantsFormat.
Proof.
  unfold CommonUtil.commitToGrants. intros H.
  repeat case_match; congruence.
Qed.

Lemma stringField_missing k props :
  oget k props = None → CommonUtil.stringField k props = None.
Proof. unfold CommonUtil.stringField. now intros ->. Qed.

Lemma commitToGrants_missing props g :
  oget "role" props = None ∨ oget "resource" props = None
  ∨ oget "action" props = None →
  CommonUtil.commitToGrants (VObj props) g = Thrown InvalidGrantsFormat g.
Proof.
  unfold CommonUtil.commitToGrants.
  intros [H | [H | H]]; rewrite (stringField_missing _ _ H); repeat case_match; done.
Qed.

Lemma forEach_commit_missing items props :
  VObj props ∈ items →
  oget "role" props = None ∨ oget "resource" props = None
  ∨ oget "action" props = None →
  ∀ g, ∃ g', forEach items CommonUtil.commitToGrants g
             = Thrown InvalidGrantsFormat g'.
Proof.
  intros Hin Hmiss. induction items as [|item items IH]; intros g.
  - inversion Hin.
  - simpl. apply elem_of_cons in Hin as [<- | Hin].
    + rewrite commitToGrants_missing by done. eauto.
    + destruct (CommonUtil.commitToGrants item g) as [g1|e g1] eqn:E.
      * apply IH, Hin.
      * apply commitToGrants_error in E as ->. eauto.
Qed.

(** C3, as stated, fails: given a string, [setGrants] raises nothing. Neither
    branch is taken and the call returns with the store it has just emptied. *)
Lemma setGrants_string_no_error :
  ¬ (∀ (norm : list (string * value) → res Store) (input : value) (g : Store),
        CommonUtil.type input ≠ "object" → CommonUtil.type input ≠ "array" →
        ∃ g', AccessControl.setGrants norm input g = Thrown InvalidGrantsFormat g').
Proof.
  intros H.
  destruct (H (λ _, Ok []) (VStr "admin") []) as [g' Hg']; [done|done|].
  discriminate Hg'.
Qed.

(** C3, amended. Given a value that is neither an object nor an array,
    [setGrants] does not fail: it returns with the store emptied. Given a flat
    list in which a record misses its [role], [resource] or [action] field, it
    fails with [InvalidGrantsFormat]. *)
Theorem setGrants_malformed :
  ∀ (norm : list (string * value) → res Store) (g : Store),
    (∀ input, CommonUtil.type input ≠ "object" → CommonUtil.type input ≠ "array" →
       AccessControl.setGrants norm input g = Done [])
    ∧ (∀ items props,
         VObj props ∈ items →
         oget "role" props = None ∨ oget "resource" props = None
         ∨ oget "action" props = None →
         ∃ g', AccessControl.setGrants norm (VArr items) g
               = Thrown InvalidGrantsFormat g').
Proof.
  intros norm g. split.
  - intros input Hobj Harr. unfold AccessControl.setGrants.
    destruct input; simpl in *; congruence.
  - intros items props Hin Hmiss. unfold AccessControl.setGrants. simpl.
    now apply (forEach_commit_missing items props).
Qed.

Lemma setGrants_malformed_witness :
  AccessControl.setGrants (λ _, Ok []) (VNum 3%float) [("admin", newRole)] = Done []
  ∧ ∃ g', AccessControl.setGrants (λ _, Ok [])
            (VArr [VObj [("role", VStr "user"); ("resource", VStr "video");
                         ("action", VStr "read:any")];
                   VObj [("role", VStr "user"); ("action", VStr "create:own")]])
            [("admin", newRole)]
          = Thrown InvalidGrantsFormat g'.
Proof.
  destruct (setGrants_malformed (λ _, Ok []) [("admin", newRole)]) as [H1 H2].
  split.
  - apply H1; discriminate.
  - apply (H2 _ [("role", VStr "user"); ("action", VStr "create:own")]).
    + right. left.
    + right. left. reflexivity.
Defined.

(** ** Role expansion *)

Lemma size_list_to_set_le (l : list string) :
  size (list_to_set l : gset string) ≤ length l.
Proof.
  induction l as [|x l IH].
  - rewrite list_to_set_nil, size_empty. done.
  - rewrite list_to_set_cons, size_union_alt, size_singleton.
    assert (size (list_to_set l ∖ {[x]} : gset string) ≤ size (list_to_set l : gset string))
      by (apply subseteq_size; set_solver).
    simpl. lia.
Qed.

Section TraversalFacts.

Variable succ : string → res (list string).
Variable U : gset string.
Hypothesis succ_in_U : ∀ r l s, succ r = Ok l → s ∈ l → s ∈ U.

Lemma traverse_nil fuel V : traverse succ (S fuel) V [] = Ok V.
Proof. reflexivity. Qed.

Lemma traverse_cons fuel V r rest :
  traverse succ (S fuel) V (r :: rest) =
    if bool_decide (r ∈ V) then traverse succ (S fuel) V rest
    else next ← succ r; traverse succ fuel (V ++ [r]) (next ++ rest).
Proof. reflexivity. Qed.

Lemma visit_measure (V : list string) (r : string) (n : nat) :
  r ∈ U → r ∉ V →
  (size (U ∖ list_to_set V) < S n)%nat →
  (size (U ∖ list_to_set (V ++ [r])) < n)%nat.
Proof.
  intros HU HV Hn.
  assert (U ∖ list_to_set (V ++ [r]) ⊂ U ∖ list_to_set V) as Hsub.
  { rewrite list_to_set_app_L. split; [set_solver|].
    intros Hc. specialize (Hc r). set_solver. }
  apply subset_size in Hsub. lia.
Qed.

(** What a successful traversal returns: it keeps what was visited, reaches the
    work list, adds only roles reachable from the work list, all of them
    expanded without error, and closes the visited roles under inheritance. *)
Record traversed (V W res : list string) : Prop := {
  tr_visited : ∀ v, v ∈ V → v ∈ res;
  tr_work : ∀ w, w ∈ W → w ∈ res;
  tr_sound : ∀ v, v ∈ res → v ∈ V ∨ reachable succ W v;
  tr_expanded : ∀ v, v ∈ res → v ∈ V ∨ ∃ l, succ v = Ok l;
  tr_closed :
    (∀ v s, v ∈ V → edge succ v s → s ∈ V ∨ s ∈ W) →
    ∀ v s, v ∈ res → edge succ v s → s ∈ res;
  tr_nodup : NoDup V → NoDup res
}.

Lemma traverse_traversed fuel :
  ∀ V W res,
    (∀ w, w ∈ W → w ∈ U) →
    (size (U ∖ list_to_set V) < fuel)%nat →
    traverse succ fuel V W = Ok res →
    traversed V W res.
Proof.
  induction fuel as [|fuel IHfuel]; intros V W res HW Hsize; [lia|].
  induction W as [|r rest IHW]; intros Hres.
  - rewrite traverse_nil in Hres. injection Hres as <-.
    split; auto.
    + intros w Hw. inversion Hw.
    + intros Hinv v s Hv He. destruct (Hinv v s Hv He) as [?|Hs]; [done|inversion Hs].
  - rewrite traverse_cons in Hres. case_bool_decide as HrV.
    + destruct IHW as [H1 H2 H3 H4 H5 H6]; [set_solver|done|].
      split; auto.
      * intros w [->|Hw]%elem_of_cons; auto.
      * intros v Hv. destruct (H3 v Hv) as [?|(w & Hw & Hrt)]; [by left|].
        right. exists w. split; [by right|done].
      * intros Hinv. apply H5. intros v s Hv He.
        destruct (Hinv v s Hv He) as [?|[->|?]%elem_of_cons]; auto.
    + destruct (succ r) as [next|e] eqn:Hsucc; [|discriminate Hres].
      simpl in Hres.
      apply IHfuel in Hres as [H1 H2 H3 H4 H5 H6].
      * split.
        -- intros v Hv. apply H1. set_solver.
        -- intros w [->|Hw]%elem_of_cons; [apply H1|apply H2]; set_solver.
        -- intros v Hv. destruct (H3 v Hv) as [[?| ->%list_elem_of_singleton]%elem_of_app
                                              |(w & Hw & Hrt)]; [by left| |].
           ++ right. exists r. split; [left|done].
           ++ right. apply elem_of_app in Hw as [Hw|Hw].
              ** exists r. split; [left|].
                 eapply rtc_l; [|exact Hrt]. by exists next.
              ** exists w. split; [by right|done].
        -- intros v Hv. destruct (H4 v Hv) as [[?| ->%list_elem_of_singleton]%elem_of_app|?];
             [by left|right; eauto|by right].
        -- intros Hinv. apply H5. intros v s [Hv| ->%list_elem_of_singleton]%elem_of_app He.
           ++ destruct (Hinv v s Hv He) as [?|[->|?]%elem_of_cons]; set_solver.
           ++ destruct He as (l & Hl & Hs). rewrite Hsucc in Hl. injection Hl as <-.
              set_solver.
        -- intros HV. apply H6. apply NoDup_app. repeat split; [done| |apply NoDup_singleton].
           intros x Hx ->%list_elem_of_singleton. done.
      * intros w [Hw|Hw]%elem_of_app; [by eapply succ_in_U|apply HW; by right].
      * apply visit_measure; [apply HW; left|done|done].
Qed.

(** A traversal cannot fail when every role it can meet expands without
    error. *)
Lemma traverse_total (P : string → Prop) fuel :
  (∀ r, P r → ∃ l, succ r = Ok l ∧ ∀ s, s ∈ l → P s) →
  ∀ V W, (∀ w, w ∈ W → P w) → ∃ res, traverse succ fuel V W = Ok res.
Proof.
  intros HP. induction fuel as [|fuel IHfuel]; intros V W HW; [by eexists|].
  induction W as [|r rest IHW].
  - eexists. apply traverse_nil.
  - rewrite traverse_cons. case_bool_decide.
    + apply IHW. intros w Hw. apply HW. by right.
    + destruct (HP r) as (l & -> & Hl); [apply HW; left|]. simpl.
      apply IHfuel. intros w [Hw|Hw]%elem_of_app; [by apply Hl|apply HW; by right].
Qed.

(** Started with nothing visited, the traversal returns exactly the reachable
    roles. *)
Lemma traverse_reachable fuel roles res :
  (∀ w, w ∈ roles → w ∈ U) →
  (size U < fuel)%nat →
  traverse succ fuel [] roles = Ok res →
  NoDup res ∧ (∀ v, v ∈ res ↔ reachable succ roles v)
  ∧ (∀ v, v ∈ res → ∃ l, succ v = Ok l).
Proof.
  intros HU Hsize Hres.
  apply traverse_traversed in Hres as [H1 H2 H3 H4 H5 H6]; [|done|].
  - split; [apply H6, NoDup_nil_2|]. split.
    + intros v. split.
      * intros Hv. destruct (H3 v Hv) as [Hn|?]; [inversion Hn|done].
      * intros (w & Hw & Hrt). apply H2 in Hw.
        induction Hrt as [|x y z Hxy _ IH]; [done|].
        apply IH. eapply H5; [|exact Hw|exact Hxy].
        intros ? ? Hn. inversion Hn.
    + intros v Hv. destruct (H4 v Hv) as [Hn|?]; [inversion Hn|done].
  - simpl. replace (U ∖ ∅) with U by set_solver. done.
Qed.

End TraversalFacts.

Lemma extendKeys_universe (g : Store) (roles : list string) r item s :
  oget r g = Some item → s ∈ extendKeys item → s ∈ universe g roles.
Proof.
  intros Hr Hs. unfold universe. apply elem_of_app. right.
  apply list_elem_of_bind. exists (r, item). split; [done|by apply oget_elem].
Qed.

Lemma extenders_universe (g : Store) (roles : list string) r l s :
  CommonUtil.extenders g r = Ok l → s ∈ l →
  s ∈ (list_to_set (universe g roles) : gset string).
Proof.
  unfold CommonUtil.extenders. intros Hl Hs. apply elem_of_list_to_set.
  destruct (oget r g) as [item|] eqn:Hr; injection Hl as <-.
  - by eapply extendKeys_universe.
  - inversion Hs.
Qed.

Lemma roles_universe (g : Store) (roles : list string) w :
  w ∈ roles → w ∈ (list_to_set (universe g roles) : gset string).
Proof. intros Hw. apply elem_of_list_to_set, elem_of_app. by left. Qed.

Lemma universe_fuel (g : Store) (roles : list string) :
  (size (list_to_set (universe g roles) : gset string) < S (length (universe g roles)))%nat.
Proof. pose proof (size_list_to_set_le (universe g roles)). lia. Qed.

(** The unconditional expansion never fails and returns exactly the roles
    reachable through [$extend]. *)
Lemma flatRoles_reachable (g : Store) (roles : list string) :
  ∃ reached, CommonUtil.flatRoles g roles = Ok reached
    ∧ NoDup reached
    ∧ ∀ v, v ∈ reached ↔ reachable (CommonUtil.extenders g) roles v.
Proof.
  destruct (traverse_total (CommonUtil.extenders g) (λ _, True)
              (S (length (universe g roles)))) with (V := @nil string) (W := roles)
    as [reached Hreached]; [|done|].
  - intros r _. unfold CommonUtil.extenders. destruct (oget r g); eauto.
  - exists reached. split; [exact Hreached|].
    eapply traverse_reachable in Hreached as (Hnd & Hiff & _);
      eauto using extenders_universe, roles_universe, universe_fuel.
Qed.

(** ** extendRole *)

(** The cycle check is exact: it answers [true] when, and only when, the role
    is reachable from the extender through [$extend]. *)
Lemma wouldCycle_reachable (g : Store) (role extender : string) :
  CommonUtil.wouldCycle g role extender = true
  ↔ rtc (edge (CommonUtil.extenders g)) extender role.
Proof.
  unfold CommonUtil.wouldCycle.
  destruct (flatRoles_reachable g [extender]) as (reached & -> & _ & Hiff).
  rewrite bool_decide_eq_true, Hiff. split.
  - by intros (w & ->%list_elem_of_singleton & Hrt).
  - intros Hrt. exists extender. split; [left|done].
Qed.

Lemma wouldCycle_self (g : Store) (role : string) :
  CommonUtil.wouldCycle g role role = true.
Proof. by apply wouldCycle_reachable. Qed.

Lemma wouldCycle_direct (g : Store) (role extender : string) item :
  oget extender g = Some item → role ∈ extendKeys item →
  CommonUtil.wouldCycle g role extender = true.
Proof.
  intros Hitem Hrole. apply wouldCycle_reachable, rtc_once.
  exists (extendKeys item). unfold CommonUtil.extenders. by rewrite Hitem.
Qed.

(** Any extension that would close a cycle, of whatever length, is refused
    and leaves the store as it was. *)
Lemma extendRole_refuses_cycles (g : Store) (role extender : string) cond :
  rtc (edge (CommonUtil.extenders g)) extender role →
  AccessControl.extendRole [role] [extender] cond g = Thrown CycleError g.
Proof.
  intros Hrt%wouldCycle_reachable. unfold AccessControl.extendRole.
  unfold CommonUtil.extendRole. simpl. unfold CommonUtil.extendPair.
  destruct (oget extender g); [|done]. by rewrite Hrt.
Qed.

Lemma extendPair_records cond role extender g g' :
  CommonUtil.extendPair cond role extender g = Ok g' →
  ∃ item, oget role g' = Some item ∧ extender ∈ extendKeys item.
Proof.
  unfold CommonUtil.extendPair. intros H.
  destruct (oget extender g) as [extItem|]; [|discriminate].
  destruct (CommonUtil.wouldCycle g role extender); [discriminate|].
  injection H as <-. eexists. split; [apply oget_oset_eq|].
  unfold extendKeys. simpl. eapply oget_okeys, oget_oset_eq.
Qed.

Lemma extendRole_single g role extender cond :
  CommonUtil.extendRole g [role] [extender] cond
  = CommonUtil.extendPair cond role extender g.
Proof.
  unfold CommonUtil.extendRole. simpl.
  destruct (CommonUtil.extendPair cond role extender g); reflexivity.
Qed.

(** C6. Extending a role by itself, closing a cycle of two roles, and
    extending by a role that does not exist all fail with [CycleError], and
    the store after the failed call is the store before it. *)
Theorem extendRole_cycle_error :
  ∀ (g : Store) (A B : string) (cond : option value),
    AccessControl.extendRole [A] [A] cond g = Thrown CycleError g
    ∧ (∀ cond' g1,
         AccessControl.extendRole [A] [B] cond g = Done g1 →
         AccessControl.extendRole [B] [A] cond' g1 = Thrown CycleError g1)
    ∧ (oget B g = None →
       AccessControl.extendRole [A] [B] cond g = Thrown CycleError g).
Proof.
  intros g A B cond. unfold AccessControl.extendRole.
  rewrite !extendRole_single. split; [|split].
  - unfold CommonUtil.extendPair.
    destruct (oget A g); [|done]. by rewrite wouldCycle_self.
  - intros cond' g1. rewrite !extendRole_single.
    destruct (CommonUtil.extendPair cond A B g) as [g'|e] eqn:E; [|done].
    intros [= ->]. apply extendPair_records in E as (item & Hitem & HB).
    unfold CommonUtil.extendPair. rewrite Hitem.
    by rewrite (wouldCycle_direct g1 B A item).
  - intros HB. unfold CommonUtil.extendPair. by rewrite HB.
Qed.

Lemma extendRole_cycle_error_witness :
  let g : Store := [("user", newRole); ("admin", newRole)] in
  AccessControl.extendRole ["admin"] ["admin"] None g = Thrown CycleError g
  ∧ (∀ g1, AccessControl.extendRole ["admin"] ["user"] None g = Done g1 →
           AccessControl.extendRole ["user"] ["admin"] None g1 = Thrown CycleError g1)
  ∧ AccessControl.extendRole ["admin"] ["guest"] None g = Thrown CycleError g.
Proof.
  intros g.
  split; [apply (extendRole_cycle_error g "admin" "user" None)|].
  split.
  - intros g1. apply (extendRole_cycle_error g "admin" "user" None).
  - apply (extendRole_cycle_error g "admin" "guest" None). reflexivity.
Defined.

Example extendRole_then_back :
  ∃ g1, AccessControl.extendRole ["admin"] ["user"] None
          [("user", newRole); ("admin", newRole)] = Done g1
        ∧ AccessControl.extendRole ["user"] ["admin"] None g1 = Thrown CycleError g1.
Proof. eexists. split; reflexivity. Qed.

(** ** Keys of the store *)

Lemma okeys_oget {X : Type} (o : list (string * X)) k :
  k ∈ okeys o → is_Some (oget k o).
Proof.
  unfold okeys. induction o as [|[k' v'] o IH]; [inversion 1|].
  rewrite fmap_cons. simpl. intros [->|Hk]%elem_of_cons.
  - rewrite String.eqb_refl. eauto.
  - destruct (String.eqb k k'); eauto.
Qed.

(** ** filter *)

(** C8. The patterns are applied by specificity, not in the order given: on
    [{a:1, b:{c:2, d:3}}] every permutation of ["*"; "!b.*"; "b.c"] yields
    [{a:1, b:{c:2}}]. And on every data object an empty pattern list and the
    empty string yield the empty object, whatever the glob matcher. *)
Theorem filter_by_specificity :
  (∀ patterns : list string,
     patterns ≡ₚ ["*"; "!b.*"; "b.c"] →
     AccessControl.filter CommonUtil.starGlob
       (VObj [("a", VNum 1%float);
              ("b", VObj [("c", VNum 2%float); ("d", VNum 3%float)])])
       (VArr (VStr <$> patterns))
     = VObj [("a", VNum 1%float); ("b", VObj [("c", VNum 2%float)])])
  ∧ (∀ (matchGlob : string → string → bool) (props : list (string * value)),
       AccessControl.filter matchGlob (VObj props) (VArr []) = VObj []
       ∧ AccessControl.filter matchGlob (VObj props) (VStr "") = VObj []).
Proof.
  split.
  - intros patterns Hperm. symmetry in Hperm.
    apply permutations_Permutation in Hperm.
    vm_compute in Hperm.
    repeat (apply elem_of_cons in Hperm as [-> | Hperm]; [vm_compute; reflexivity|]).
    inversion Hperm.
  - intros matchGlob props. split; reflexivity.
Qed.

Lemma filter_by_specificity_witness :
  AccessControl.filter CommonUtil.starGlob
    (VObj [("a", VNum 1%float);
           ("b", VObj [("c", VNum 2%float); ("d", VNum 3%float)])])
    (VArr (VStr <$> ["b.c"; "*"; "!b.*"]))
  = VObj [("a", VNum 1%float); ("b", VObj [("c", VNum 2%float)])].
Proof.
  apply (proj1 filter_by_specificity).
  apply (Permutation_trans (l' := ["*"; "b.c"; "!b.*"])).
  - apply perm_swap.
  - apply perm_skip, perm_swap.
Defined.

(** ** Attribute union *)

Lemma unionAttrs_elem (attrs acc : list string) x :
  x ∈ CommonUtil.unionAttrs acc attrs ↔ x ∈ acc ∨ x ∈ attrs.
Proof.
  unfold CommonUtil.unionAttrs. revert acc.
  induction attrs as [|a attrs IH]; intros acc; simpl.
  - set_solver.
  - rewrite IH. case_bool_decide; set_solver.
Qed.

Lemma unionAttrs_NoDup (attrs acc : list string) :
  NoDup acc → NoDup (CommonUtil.unionAttrs acc attrs).
Proof.
  unfold CommonUtil.unionAttrs. revert acc.
  induction attrs as [|a attrs IH]; intros acc Hacc; simpl; [done|].
  apply IH. case_bool_decide; [done|].
  apply NoDup_app. repeat split; [done| |apply NoDup_singleton].
  intros x Hx ->%list_elem_of_singleton. done.
Qed.

Lemma unionAll_from (ls : list (list string)) (acc : list string) x :
  x ∈ fold_left CommonUtil.unionAttrs ls acc ↔ x ∈ acc ∨ ∃ l, l ∈ ls ∧ x ∈ l.
Proof.
  revert acc. induction ls as [|l ls IH]; intros acc; simpl.
  - split; [by left|]. intros [?|(l & Hl & _)]; [done|inversion Hl].
  - rewrite IH, unionAttrs_elem. split.
    + intros [[?|?]|(l' & Hl' & ?)]; [by left| |].
      * right. exists l. split; [left|done].
      * right. exists l'. split; [by right|done].
    + intros [?|(l' & [->|Hl']%elem_of_cons & ?)]; [by left; left|by left; right|].
      right. by exists l'.
Qed.

Lemma unionAll_elem (ls : list (list string)) x :
  x ∈ CommonUtil.unionAll ls ↔ ∃ l, l ∈ ls ∧ x ∈ l.
Proof.
  unfold CommonUtil.unionAll. rewrite unionAll_from. split; [|by right].
  intros [Hn|?]; [inversion Hn|done].
Qed.

Lemma unionAll_NoDup (ls : list (list string)) : NoDup (CommonUtil.unionAll ls).
Proof.
  unfold CommonUtil.unionAll. generalize (NoDup_nil_2 (A := string)).
  generalize (@nil string) as acc.
  induction ls as [|l ls IH]; intros acc Hacc; simpl; [done|].
  by apply IH, unionAttrs_NoDup.
Qed.

(** ** Query resolution *)

Section QueryFacts.

Variable ev : value → value → res bool.
Variable gm : option string → option string → option string → Grant → bool.

Lemma acceptedKeys_keys ext context l s :
  CommonUtil.acceptedKeys ev ext context = Ok l → s ∈ l → s ∈ okeys ext.
Proof.
  unfold okeys. revert l. induction ext as [|[r e] ext IH]; intros l; simpl.
  - intros [= <-]. inversion 1.
  - destruct (CommonUtil.accepts ev (ext_condition e) context) as [b|]; [|done].
    simpl. destruct (CommonUtil.acceptedKeys ev ext context) as [l'|]; [|done].
    simpl. intros [= <-] Hs. destruct b.
    + apply elem_of_cons in Hs as [->|Hs]; [left|right; eauto].
    + right. eauto.
Qed.

Lemma inherited_universe (g : Store) context (roles : list string) r l s :
  CommonUtil.inherited ev g context r = Ok l → s ∈ l →
  s ∈ (list_to_set (universe g roles) : gset string).
Proof.
  unfold CommonUtil.inherited. intros Hl Hs. apply elem_of_list_to_set.
  destruct (oget r g) as [item|] eqn:Hr; [|injection Hl as <-; inversion Hs].
  destruct (extend item) as [ext|] eqn:Hext; [|injection Hl as <-; inversion Hs].
  eapply extendKeys_universe; [done|].
  unfold extendKeys. rewrite Hext. by eapply acceptedKeys_keys.
Qed.

(** A successful expansion returns each reachable role once and nothing
    else. *)
Lemma expandRoles_reachable (g : Store) context roles rs :
  CommonUtil.expandRoles ev g context roles = Ok rs →
  NoDup rs
  ∧ (∀ v, v ∈ rs ↔ reachable (CommonUtil.inherited ev g context) roles v)
  ∧ (∀ v, v ∈ rs → ∃ l, CommonUtil.inherited ev g context v = Ok l).
Proof.
  intros H. eapply traverse_reachable in H;
    eauto using inherited_universe, roles_universe, universe_fuel.
Qed.

Lemma reachable_perm succ (roles roles' : list string) v :
  roles' ≡ₚ roles → reachable succ roles v → reachable succ roles' v.
Proof.
  intros Hp (w & Hw & Hrt). exists w. split; [|done]. by rewrite Hp.
Qed.

Lemma universe_perm (g : Store) (roles roles' : list string) :
  roles' ≡ₚ roles → length (universe g roles') = length (universe g roles).
Proof. intros Hp. unfold universe. by rewrite !length_app, Hp. Qed.

(** The order of the queried roles changes neither whether the expansion
    succeeds nor which roles it returns. *)
Lemma expandRoles_perm (g : Store) context roles roles' rs :
  roles' ≡ₚ roles →
  CommonUtil.expandRoles ev g context roles = Ok rs →
  ∃ rs', CommonUtil.expandRoles ev g context roles' = Ok rs'
         ∧ NoDup rs' ∧ ∀ v, v ∈ rs' ↔ v ∈ rs.
Proof.
  intros Hp Hrs.
  destruct (expandRoles_reachable _ _ _ _ Hrs) as (Hnd & Hiff & Hok).
  destruct (traverse_total (CommonUtil.inherited ev g context) (λ v, v ∈ rs)
              (S (length (universe g roles')))) with (V := @nil string) (W := roles')
    as [rs' Hrs'].
  - intros r Hr. destruct (Hok r Hr) as [l Hl]. exists l. split; [done|].
    intros s Hs. apply Hiff. apply Hiff in Hr as (w & Hw & Hrt).
    exists w. split; [done|]. eapply rtc_r; [exact Hrt|]. by exists l.
  - intros w Hw. apply Hiff. exists w. split; [by rewrite <-Hp|done].
  - exists rs'. split; [exact Hrs'|].
    destruct (expandRoles_reachable _ _ _ _ Hrs') as (Hnd' & Hiff' & _).
    split; [done|]. intros v. rewrite Hiff, Hiff'.
    split; apply reachable_perm; done.
Qed.

Lemma acceptedAttrs_elem q grs ls l :
  CommonUtil.acceptedAttrs ev gm q grs = Ok ls →
  l ∈ ls ↔ ∃ gr, gr ∈ grs ∧ CommonUtil.matchesQuery gm q gr = true
                 ∧ CommonUtil.accepts ev (condition gr) (q_context q) = Ok true
                 ∧ attributes gr = l.
Proof.
  revert ls. induction grs as [|gr grs IH]; intros ls; simpl.
  - intros [= <-]. split; [inversion 1|]. intros (? & Hn & _). inversion Hn.
  - destruct (CommonUtil.matchesQuery gm q gr) eqn:Hm.
    + destruct (CommonUtil.accepts ev (condition gr) (q_context q)) as [b|] eqn:Hb;
        [|done]. simpl.
      destruct (CommonUtil.acceptedAttrs ev gm q grs) as [ls'|]; [|done]. simpl.
      intros [= <-]. specialize (IH ls' eq_refl). destruct b.
      * rewrite elem_of_cons, IH. split.
        -- intros [->|(gr' & ? & ?)]; [exists gr; split; [left|done]|].
           exists gr'. split; [by right|done].
        -- intros (gr' & [->|?]%elem_of_cons & ? & ? & ?); [by left|].
           right. by exists gr'.
      * rewrite IH. split.
        -- intros (gr' & ? & ?). exists gr'. split; [by right|done].
        -- intros (gr' & [->|?]%elem_of_cons & ? & ? & ?); [congruence|].
           by exists gr'.
    + intros Hls. rewrite (IH ls Hls). split.
      * intros (gr' & ? & ?). exists gr'. split; [by right|done].
      * intros (gr' & [->|?]%elem_of_cons & ? & ? & ?); [congruence|].
        by exists gr'.
Qed.

Lemma acceptedAttrs_no_match q grs :
  (∀ gr, gr ∈ grs → CommonUtil.matchesQuery gm q gr = false) →
  CommonUtil.acceptedAttrs ev gm q grs = Ok [].
Proof.
  induction grs as [|gr grs IH]; intros H; simpl; [done|].
  rewrite (H gr) by left. apply IH. intros gr' Hgr'. apply H. by right.
Qed.

Lemma collect_elem (g : Store) q rs ls :
  CommonUtil.collect ev gm g q rs = Ok ls →
  (∀ r, r ∈ rs → ∃ lr, CommonUtil.roleAttrs ev gm g q r = Ok lr)
  ∧ ∀ l, l ∈ ls ↔ ∃ r lr, r ∈ rs ∧ CommonUtil.roleAttrs ev gm g q r = Ok lr ∧ l ∈ lr.
Proof.
  revert ls. induction rs as [|r rs IH]; intros ls; simpl.
  - intros [= <-]. split; [inversion 1|]. intros l.
    split; [inversion 1|]. intros (? & ? & Hn & _). inversion Hn.
  - destruct (CommonUtil.roleAttrs ev gm g q r) as [lr|] eqn:Hr; [|done]. simpl.
    destruct (CommonUtil.collect ev gm g q rs) as [ls'|]; [|done]. simpl.
    intros [= <-]. destruct (IH ls' eq_refl) as [IH1 IH2]. split.
    + intros r' [->|Hr']%elem_of_cons; eauto.
    + intros l. rewrite elem_of_app, IH2. split.
      * intros [?|(r' & lr' & ? & ? & ?)].
        -- exists r, lr. split; [left|done].
        -- exists r', lr'. split; [by right|done].
      * intros (r' & lr' & [->|?]%elem_of_cons & Hr' & ?).
        -- left. congruence.
        -- right. by exists r', lr'.
Qed.

Lemma collect_total (g : Store) q rs :
  (∀ r, r ∈ rs → ∃ lr, CommonUtil.roleAttrs ev gm g q r = Ok lr) →
  ∃ ls, CommonUtil.collect ev gm g q rs = Ok ls.
Proof.
  induction rs as [|r rs IH]; intros H; simpl; [by eexists|].
  destruct (H r) as [lr ->]; [left|].
  destruct IH as [ls ->]; [intros r' Hr'; apply H; by right|].
  simpl. by eexists.
Qed.

End QueryFacts.

Section PermissionFacts.

Variable ev : value → value → res bool.
Variable gm : option string → option string → option string → Grant → bool.

Lemma acceptedAttrs_withRoles q roles' grs :
  CommonUtil.acceptedAttrs ev gm (withRoles q roles') grs
  = CommonUtil.acceptedAttrs ev gm q grs.
Proof.
  induction grs as [|gr grs IH]; simpl; [done|].
  rewrite IH. reflexivity.
Qed.

Lemma roleAttrs_withRoles (g : Store) q roles' r :
  CommonUtil.roleAttrs ev gm g (withRoles q roles') r = CommonUtil.roleAttrs ev gm g q r.
Proof.
  unfold CommonUtil.roleAttrs. destruct (oget r g); [|done].
  apply acceptedAttrs_withRoles.
Qed.

Lemma allowedAttribute_perm (g : Store) q roles' a :
  roles' ≡ₚ q_role q →
  CommonUtil.allowedAttribute ev gm g (withRoles q roles') a
  ↔ CommonUtil.allowedAttribute ev gm g q a.
Proof.
  intros Hp. unfold CommonUtil.allowedAttribute. simpl.
  split; intros (r & item & gr & Hr & H); exists r, item, gr; (split; [|exact H]).
  - by eapply reachable_perm.
  - by eapply reachable_perm.
Qed.

(** The resolved union holds each allowed attribute once and nothing else. *)
Lemma getUnionAttrsOfRoles_union (g : Store) q attrs :
  CommonUtil.getUnionAttrsOfRoles ev gm g q = Ok attrs →
  NoDup attrs ∧ ∀ a, a ∈ attrs ↔ CommonUtil.allowedAttribute ev gm g q a.
Proof.
  unfold CommonUtil.getUnionAttrsOfRoles.
  destruct (CommonUtil.expandRoles ev g (q_context q) (q_role q)) as [rs|] eqn:Hrs;
    [|done]. simpl.
  destruct (CommonUtil.collect ev gm g q rs) as [ls|] eqn:Hls; [|done]. simpl.
  intros [= <-]. split; [apply unionAll_NoDup|].
  destruct (expandRoles_reachable _ _ _ _ _ Hrs) as (_ & Hreach & _).
  destruct (collect_elem _ _ _ _ _ _ Hls) as [Hok Hin].
  intros a. rewrite unionAll_elem. split.
  - intros (l & Hl & Ha). apply Hin in Hl as (r & lr & Hr & Hlr & Hl).
    unfold CommonUtil.roleAttrs in Hlr.
    destruct (oget r g) as [item|] eqn:Hitem; [|injection Hlr as <-; inversion Hl].
    apply (acceptedAttrs_elem _ _ _ _ _ l) in Hlr.
    apply Hlr in Hl as (gr & Hgr & Hm & Hacc & <-).
    exists r, item, gr. by rewrite <-Hreach.
  - intros (r & item & gr & Hr & Hitem & Hgr & Hm & Hacc & Ha).
    apply Hreach in Hr. destruct (Hok r Hr) as [lr Hlr].
    exists (attributes gr). split; [|done].
    apply Hin. exists r, lr. split; [done|]. split; [done|].
    unfold CommonUtil.roleAttrs in Hlr. rewrite Hitem in Hlr.
    apply (acceptedAttrs_elem _ _ _ _ _ (attributes gr)) in Hlr.
    apply Hlr. by exists gr.
Qed.

Lemma getUnionAttrsOfRoles_perm (g : Store) q roles' attrs :
  roles' ≡ₚ q_role q →
  CommonUtil.getUnionAttrsOfRoles ev gm g q = Ok attrs →
  ∃ attrs', CommonUtil.getUnionAttrsOfRoles ev gm g (withRoles q roles') = Ok attrs'
            ∧ attrs' ≡ₚ attrs.
Proof.
  intros Hp Hattrs.
  destruct (getUnionAttrsOfRoles_union _ _ _ Hattrs) as [Hnd Hiff].
  unfold CommonUtil.getUnionAttrsOfRoles in Hattrs.
  destruct (CommonUtil.expandRoles ev g (q_context q) (q_role q)) as [rs|] eqn:Hrs;
    [|done]. simpl in Hattrs.
  destruct (CommonUtil.collect ev gm g q rs) as [ls|] eqn:Hls; [|done].
  destruct (collect_elem _ _ _ _ _ _ Hls) as [Hok _].
  destruct (expandRoles_perm _ _ _ _ _ _ Hp Hrs) as (rs' & Hrs' & _ & Hsame).
  destruct (collect_total ev gm g (withRoles q roles') rs') as [ls' Hls'].
  { intros r Hr. rewrite roleAttrs_withRoles. apply Hok, Hsame, Hr. }
  assert (CommonUtil.getUnionAttrsOfRoles ev gm g (withRoles q roles')
          = Ok (CommonUtil.unionAll ls')) as Hattrs'.
  { unfold CommonUtil.getUnionAttrsOfRoles. simpl. rewrite Hrs'. simpl.
    by rewrite Hls'. }
  exists (CommonUtil.unionAll ls'). split; [done|].
  destruct (getUnionAttrsOfRoles_union _ _ _ Hattrs') as [Hnd' Hiff'].
  apply NoDup_Permutation; [done|done|].
  intros a. by rewrite Hiff, Hiff', allowedAttribute_perm.
Qed.

Lemma getUnionAttrsOfRoles_no_match (g : Store) q rs :
  CommonUtil.expandRoles ev g (q_context q) (q_role q) = Ok rs →
  (∀ r item gr, r ∈ rs → oget r g = Some item → gr ∈ grants item →
                CommonUtil.matchesQuery gm q gr = false) →
  CommonUtil.getUnionAttrsOfRoles ev gm g q = Ok [].
Proof.
  intros Hrs Hno. unfold CommonUtil.getUnionAttrsOfRoles. rewrite Hrs. simpl.
  assert (CommonUtil.collect ev gm g q rs = Ok []) as ->; [|done].
  clear Hrs. induction rs as [|r rs IH]; simpl; [done|].
  assert (CommonUtil.roleAttrs ev gm g q r = Ok []) as ->.
  { unfold CommonUtil.roleAttrs. destruct (oget r g) as [item|] eqn:Hitem; [|done].
    apply acceptedAttrs_no_match. intros gr Hgr. eapply Hno; [left|done|done]. }
  simpl. rewrite IH; [done|].
  intros r' item gr Hr'. apply Hno. by right.
Qed.

End PermissionFacts.

(** C1. The [Permission] of a query has [granted] equal to
    [attributes.length > 0], which is to say that some attribute is allowed.
    A query whose roles expand to roles none of which holds a grant matching
    its resource and action is no error: it yields a permission that is not
    granted, with no attribute. *)
Theorem permission_granted :
  ∀ (ev : value → value → res bool)
    (gm : option string → option string → option string → Grant → bool)
    (q : IQueryInfo) (g : Store),
    (∀ p, AccessControl.permission ev gm q g = Ok p →
          granted p = bool_decide (0 < length (p_attributes p))
          ∧ (granted p = true ↔ ∃ a, CommonUtil.allowedAttribute ev gm g q a))
    ∧ (∀ rs, CommonUtil.expandRoles ev g (q_context q) (q_role q) = Ok rs →
             (∀ r item gr, r ∈ rs → oget r g = Some item → gr ∈ grants item →
                           CommonUtil.matchesQuery gm q gr = false) →
             ∃ p, AccessControl.permission ev gm q g = Ok p
                  ∧ granted p = false ∧ p_attributes p = []).
Proof.
  intros ev gm q g. split.
  - intros p Hp. split; [reflexivity|].
    unfold AccessControl.permission in Hp.
    destruct (CommonUtil.getUnionAttrsOfRoles ev gm g q) as [attrs|] eqn:Hattrs;
      [|done].
    injection Hp as <-. unfold granted. simpl.
    destruct (getUnionAttrsOfRoles_union _ _ _ _ _ Hattrs) as [_ Hiff].
    rewrite bool_decide_eq_true. split.
    + destruct attrs as [|a attrs]; simpl; [lia|].
      intros _. exists a. apply Hiff. left.
    + intros [a Ha%Hiff]. destruct attrs; [inversion Ha|simpl; lia].
  - intros rs Hrs Hno. unfold AccessControl.permission.
    rewrite (getUnionAttrsOfRoles_no_match ev gm g q rs Hrs Hno). simpl.
    eexists. split; [reflexivity|]. split; reflexivity.
Qed.

(** C2. The attributes of a permission are the deduplicated union of the
    attributes of the matching, accepted grants of every role reachable from
    the queried roles by extension: each allowed attribute is there once, and
    nothing else is. Querying with the roles in another order succeeds as
    well and resolves the same union. *)
Theorem permission_attributes_union :
  ∀ (ev : value → value → res bool)
    (gm : option string → option string → option string → Grant → bool)
    (q : IQueryInfo) (g : Store) (p : Permission),
    AccessControl.permission ev gm q g = Ok p →
    NoDup (p_attributes p)
    ∧ (∀ a, a ∈ p_attributes p ↔ CommonUtil.allowedAttribute ev gm g q a)
    ∧ (∀ roles', roles' ≡ₚ q_role q →
         ∃ p', AccessControl.permission ev gm (withRoles q roles') g = Ok p'
               ∧ p_attributes p' ≡ₚ p_attributes p
               ∧ (∀ a, a ∈ p_attributes p' ↔ a ∈ p_attributes p)).
Proof.
  intros ev gm q g p Hp. unfold AccessControl.permission in Hp.
  destruct (CommonUtil.getUnionAttrsOfRoles ev gm g q) as [attrs|] eqn:Hattrs; [|done].
  injection Hp as <-. simpl.
  destruct (getUnionAttrsOfRoles_union _ _ _ _ _ Hattrs) as [Hnd Hiff].
  split; [done|]. split; [done|].
  intros roles' Hperm.
  destruct (getUnionAttrsOfRoles_perm _ _ _ _ _ _ Hperm Hattrs) as (attrs' & Hattrs' & Hp').
  unfold AccessControl.permission. rewrite Hattrs'. simpl.
  eexists. split; [reflexivity|]. simpl. split; [done|].
  intros a. by rewrite Hp'.
Qed.

Lemma permission_granted_witness :
  (∃ p, AccessControl.permission Sample.evaluator Sample.matcher
          (Sample.query ["admin"] "video") Sample.store = Ok p
        ∧ granted p = bool_decide (0 < length (p_attributes p))
        ∧ granted p = true)
  ∧ (∃ p, AccessControl.permission Sample.evaluator Sample.matcher
            (Sample.query ["admin"] "profile") Sample.store = Ok p
          ∧ granted p = false ∧ p_attributes p = []).
Proof.
  split.
  - exists {| p_query := Sample.query ["admin"] "video";
              p_attributes := ["*"; "title"; "!id"] |}.
    split; [reflexivity|].
    destruct (permission_granted Sample.evaluator Sample.matcher
                (Sample.query ["admin"] "video") Sample.store) as [H _].
    destruct (H {| p_query := Sample.query ["admin"] "video";
                   p_attributes := ["*"; "title"; "!id"] |}) as [H1 _];
      [reflexivity|].
    split; [exact H1|reflexivity].
  - destruct (permission_granted Sample.evaluator Sample.matcher
                (Sample.query ["admin"] "profile") Sample.store) as [_ H].
    apply (H ["admin"; "user"]); [reflexivity|].
    intros r item gr Hr Hitem Hgr.
    apply elem_of_cons in Hr as [-> | Hr].
    + injection Hitem as <-.
      apply list_elem_of_singleton in Hgr as ->. reflexivity.
    + apply list_elem_of_singleton in Hr as ->. injection Hitem as <-.
      apply elem_of_cons in Hgr as [-> | Hgr]; [reflexivity|].
      apply list_elem_of_singleton in Hgr as ->. reflexivity.
Defined.

Lemma permission_attributes_union_witness :
  NoDup ["*"; "title"; "!id"]
  ∧ (∀ a, a ∈ ["*"; "title"; "!id"]
          ↔ CommonUtil.allowedAttribute Sample.evaluator Sample.matcher Sample.store
              (Sample.query ["admin"; "user"] "video") a)
  ∧ ∃ p', AccessControl.permission Sample.evaluator Sample.matcher
            (Sample.query ["user"; "admin"] "video") Sample.store = Ok p'
          ∧ p_attributes p' ≡ₚ ["*"; "title"; "!id"]
          ∧ (∀ a, a ∈ p_attributes p' ↔ a ∈ ["*"; "title"; "!id"]).
Proof.
  destruct (permission_attributes_union Sample.evaluator Sample.matcher
              (Sample.query ["admin"; "user"] "video") Sample.store
              {| p_query := Sample.query ["admin"; "user"] "video";
                 p_attributes := ["*"; "title"; "!id"] |} eq_refl)
    as (H1 & H2 & H3).
  split; [exact H1|]. split; [exact H2|].
  apply (H3 ["user"; "admin"]). apply perm_swap.
Defined.

(* ================================================================== *)
(** * Further properties of the sources *)
(* ================================================================== *)

(** ** OrCondition.evaluate over a list of operands *)

Section OrOperands.

Variable ev : value → value → res bool.

Lemma or_loop_app l1 l2 context b :
  OrCondition.loop ev (l1 ++ l2) context b =
    (b' ← OrCondition.loop ev l1 context b; OrCondition.loop ev l2 context b').
Proof.
  revert b. induction l1 as [|c l1 IH]; intros b; simpl; [done|].
  destruct b; [apply IH|].
  destruct (ev c context) as [r|e]; simpl; [apply IH|done].
Qed.

Lemma or_loop_false l context :
  OrCondition.loop ev l context false = Ok false
  ↔ Forall (λ c, ev c context = Ok false) l.
Proof.
  induction l as [|c l IH]; simpl.
  - split; [constructor|done].
  - destruct (ev c context) as [[|]|e] eqn:Hc; simpl.
    + rewrite or_loop_true. split; [done|]. intros H. inversion H. congruence.
    + rewrite IH. split; [by constructor|]. intros H. by inversion H.
    + split; [done|]. intros H. inversion H. congruence.
Qed.

Lemma or_loop_first l context r :
  r ≠ Ok false →
  OrCondition.loop ev l context false = r
  ↔ ∃ pre c post, l = pre ++ c :: post
                  ∧ Forall (λ x, ev x context = Ok false) pre
                  ∧ ev c context = r.
Proof.
  intros Hr. induction l as [|c l IH]; simpl.
  - split; [congruence|]. intros (pre & c & post & Hl & _). by destruct pre.
  - destruct (ev c context) as [[|]|e] eqn:Hc; simpl.
    + rewrite or_loop_true. split.
      * intros <-. exists [], c, l. repeat split; [constructor|done].
      * intros ([|x pre] & c' & post & [= -> ->] & Hpre & Hc'); [congruence|].
        inversion Hpre. congruence.
    + rewrite IH. split.
      * intros (pre & c' & post & -> & Hpre & Hc').
        exists (c :: pre), c', post. repeat split; [by constructor|done].
      * intros ([|x pre] & c' & post & [= -> ->] & Hpre & Hc'); [congruence|].
        exists pre, c', post. repeat split; [by inversion Hpre|done].
    + split.
      * intros <-. exists [], c, l. repeat split; [constructor|done].
      * intros ([|x pre] & c' & post & [= -> ->] & Hpre & Hc'); [congruence|].
        inversion Hpre. congruence.
Qed.

Lemma or_evaluate_array l context :
  truthy context = true →
  OrCondition.evaluate ev (VArr l) context = OrCondition.loop ev l context false.
Proof. intros Hc. by rewrite or_evaluate_checked. Qed.

End OrOperands.

(** X1. An OR over a list of operands, with a context present, is true exactly
    when some operand evaluates to true and every operand before it
    evaluates to false: the operands after the first true one are not
    evaluated, whatever they would give. *)
Theorem or_true_first_operand :
  ∀ (ev : value → value → res bool) (l : list value) (context : value),
    truthy context = true →
    OrCondition.evaluate ev (VArr l) context = Ok true
    ↔ ∃ pre c post, l = pre ++ c :: post
                    ∧ Forall (λ x, ev x context = Ok false) pre
                    ∧ ev c context = Ok true.
Proof.
  intros ev l context Hc. rewrite or_evaluate_array by done.
  by apply or_loop_first.
Qed.

Lemma or_true_first_operand_witness :
  OrCondition.evaluate Sample.evaluator
    (VArr [VBool false; VBool true; VNull]) (VObj []) = Ok true.
Proof.
  apply or_true_first_operand; [reflexivity|].
  exists [VBool false], (VBool true), [VNull].
  split; [reflexivity|]. split; [|reflexivity].
  constructor; [reflexivity|constructor].
Defined.

(** X2. An OR over a list of operands, with a context present, is false
    exactly when every operand evaluates to false. *)
Theorem or_false_all_operands :
  ∀ (ev : value → value → res bool) (l : list value) (context : value),
    truthy context = true →
    OrCondition.evaluate ev (VArr l) context = Ok false
    ↔ Forall (λ c, ev c context = Ok false) l.
Proof.
  intros ev l context Hc. rewrite or_evaluate_array by done.
  apply or_loop_false.
Qed.

Lemma or_false_all_operands_witness :
  OrCondition.evaluate Sample.evaluator
    (VArr [VBool false; VBool false]) (VObj []) = Ok false.
Proof.
  apply or_false_all_operands; [reflexivity|].
  repeat constructor.
Defined.

(** X3. An OR over a list of operands, with a context present, fails exactly
    when an operand fails after operands that all evaluate to false, and it
    fails with the error of that operand: an array of operands never raises
    an error of its own, and a failure behind a true operand is never met. *)
Theorem or_error_first_failing_operand :
  ∀ (ev : value → value → res bool) (l : list value) (context : value) (e : error),
    truthy context = true →
    OrCondition.evaluate ev (VArr l) context = Err e
    ↔ ∃ pre c post, l = pre ++ c :: post
                    ∧ Forall (λ x, ev x context = Ok false) pre
                    ∧ ev c context = Err e.
Proof.
  intros ev l context e Hc. rewrite or_evaluate_array by done.
  by apply or_loop_first.
Qed.

Lemma or_error_first_failing_operand_witness :
  OrCondition.evaluate Sample.evaluator
    (VArr [VBool false; VNull; VBool true]) (VObj []) = Err UnknownPredicate.
Proof.
  apply or_error_first_failing_operand; [reflexivity|].
  exists [VBool false], VNull, [VBool true].
  split; [reflexivity|]. split; [|reflexivity].
  constructor; [reflexivity|constructor].
Defined.

(** X4. OR composes over concatenation: with a context present, the OR of
    [l1 ++ l2] is true or fails as the OR of [l1] does, and is the OR of [l2]
    when the OR of [l1] is false. *)
Theorem or_concat :
  ∀ (ev : value → value → res bool) (l1 l2 : list value) (context : value),
    truthy context = true →
    OrCondition.evaluate ev (VArr (l1 ++ l2)) context =
      match OrCondition.evaluate ev (VArr l1) context with
      | Ok true => Ok true
      | Ok false => OrCondition.evaluate ev (VArr l2) context
      | Err e => Err e
      end.
Proof.
  intros ev l1 l2 context Hc. rewrite !or_evaluate_array by done.
  rewrite or_loop_app.
  destruct (OrCondition.loop ev l1 context false) as [[|]|e]; simpl; [|done|done].
  apply or_loop_true.
Qed.

Lemma or_concat_witness :
  OrCondition.evaluate Sample.evaluator
    (VArr ([VBool false] ++ [VBool true])) (VObj []) =
    match OrCondition.evaluate Sample.evaluator (VArr [VBool false]) (VObj []) with
    | Ok true => Ok true
    | Ok false => OrCondition.evaluate Sample.evaluator (VArr [VBool true]) (VObj [])
    | Err e => Err e
    end.
Proof. apply or_concat. reflexivity. Defined.

(** ** removeRoles *)

Lemma okeys_oset_present {X : Type} (o : list (string * X)) k v :
  is_Some (oget k o) → okeys (oset k v o) = okeys o.
Proof.
  unfold okeys. induction o as [|[k' v'] o IH]; simpl; [by intros [? ?]|].
  destruct (String.eqb_spec k k') as [->|Hne]; [done|].
  intros H. rewrite !fmap_cons. f_equal. by apply IH.
Qed.

Lemma oget_None_okeys {X : Type} (o : list (string * X)) k :
  oget k o = None ↔ k ∉ okeys o.
Proof.
  split.
  - intros Hn Hk%okeys_oget. rewrite Hn in Hk. by destruct Hk.
  - intros Hk. apply eq_None_not_Some. intros [v Hv]. by apply oget_okeys in Hv.
Qed.

Lemma odelete_absent {X : Type} (o : list (string * X)) k :
  oget k o = None → odelete k o = o.
Proof.
  induction o as [|[k' v'] o IH]; simpl; [done|].
  destruct (String.eqb k k'); [done|]. intros H. f_equal. by apply IH.
Qed.

Lemma oget_odelete {X : Type} (o : list (string * X)) k k' :
  oget k' (odelete k o) = if decide (k = k') then None else oget k' o.
Proof.
  case_decide as H; [subst; apply oget_odelete_eq|by apply oget_odelete_ne].
Qed.

Lemma oset_same {X : Type} (o : list (string * X)) k v :
  oget k o = Some v → oset k v o = o.
Proof.
  induction o as [|[k' v'] o IH]; simpl; [done|].
  destruct (String.eqb k k'); [by intros [= ->]|]. intros H. f_equal. by apply IH.
Qed.

Lemma insert_sorted_elem s l x : x ∈ insert_sorted s l ↔ x = s ∨ x ∈ l.
Proof.
  induction l as [|y l IH]; simpl; [set_solver|].
  destruct (String.leb s y); [set_solver|]. rewrite elem_of_cons, IH. set_solver.
Qed.

Lemma sort_elem l x : x ∈ sort l ↔ x ∈ l.
Proof.
  unfold sort. induction l as [|y l IH]; simpl; [done|].
  rewrite insert_sorted_elem, IH. set_solver.
Qed.

(** Once a score is [NaN] it stays [NaN]. *)
Lemma sub_nan_l x : PrimFloat.sub PrimFloat.nan x = PrimFloat.nan.
Proof. apply Prim2SF_inj. rewrite sub_spec. reflexivity. Qed.

Lemma sub_nan_r x : PrimFloat.sub x PrimFloat.nan = PrimFloat.nan.
Proof.
  apply Prim2SF_inj. rewrite sub_spec. simpl. by destruct (Prim2SF x).
Qed.

Lemma jsSub_undefined x : jsSub x None = Some PrimFloat.nan.
Proof. unfold jsSub. simpl. by rewrite sub_nan_r. Qed.

Lemma jsSub_nan y : jsSub (Some PrimFloat.nan) y = Some PrimFloat.nan.
Proof. unfold jsSub. simpl. by rewrite sub_nan_l. Qed.

(** What [roleItem.$extend[r]] being truthy comes to. *)
Lemma lists_true item r :
  lists item r = true
  ↔ is_Some (extend item) ∧ (is_Some (extension item r) ∨ protoMember r = true).
Proof.
  unfold lists, extension. destruct (extend item) as [ext|]; simpl.
  - rewrite orb_true_iff, bool_decide_eq_true. split; [eauto|by intros [_ ?]].
  - split; [done|]. by intros [[? ?] _].
Qed.

Lemma lists_false item r :
  lists item r = false
  ↔ extend item = None ∨ (extension item r = None ∧ protoMember r = false).
Proof.
  unfold lists, extension. destruct (extend item) as [ext|]; simpl.
  - rewrite orb_false_iff, bool_decide_eq_false, <-eq_None_not_Some.
    split; [by right|by intros [?|?]].
  - split; [by left|done].
Qed.

(** The three ways a step of the inner loop goes: the role does not list [r]
    and nothing happens; it lists [r] and [this._grants[r]] is [undefined],
    which throws before anything is written; it lists [r] and its score and
    its [$extend] are updated. *)
Lemma strip_cases role r (g1 : Store) :
  (AccessControl.strip role r g1 = Done g1
   ∧ ∃ item, oget role g1 = Some item ∧ lists item r = false)
  ∨ (AccessControl.strip role r g1 = Thrown TypeError g1
     ∧ (oget role g1 = None
        ∨ ∃ item, oget role g1 = Some item ∧ lists item r = true
                  ∧ oget r g1 = None ∧ protoMember r = false))
  ∨ (∃ item ext,
       oget role g1 = Some item ∧ extend item = Some ext ∧ lists item r = true
       ∧ (is_Some (oget r g1) ∨ protoMember r = true)
       ∧ AccessControl.strip role r g1
         = Done (oset role {| grants := grants item;
                              extend := Some (odelete r ext);
                              score := jsSub (score item) (scoreOf g1 r) |} g1)).
Proof.
  unfold AccessControl.strip, AccessControl.removedScoreOf, scoreOf.
  destruct (oget role g1) as [item|] eqn:Hrole; [|right; left; eauto].
  destruct (extend item) as [ext|] eqn:Hext.
  - destruct (lists item r) eqn:Hl; [|left; eauto].
    destruct (oget r g1) as [removed|] eqn:Hr; simpl.
    + right; right. exists item, ext. eauto 10.
    + destruct (protoMember r) eqn:Hp.
      * right; right. exists item, ext. eauto 10.
      * right; left. split; [done|]. right. eauto 10.
  - left. split; [done|]. exists item. split; [done|]. unfold lists. by rewrite Hext.
Qed.

(** A loop keeps what each of its steps keeps, whether it completes or
    throws. *)
Lemma forEach_keeps {X : Type} (P : Store → Prop) (E : error → Prop)
    (l : list X) (body : X → Store → outcome) :
  (∀ a g, a ∈ l → P g →
          match body a g with
          | Done g' => P g'
          | Thrown e g' => P g' ∧ E e
          end) →
  ∀ g, P g →
       match forEach l body g with
       | Done g' => P g'
       | Thrown e g' => P g' ∧ E e
       end.
Proof.
  induction l as [|a l IH]; intros Hbody g Hg; simpl; [done|].
  specialize (Hbody a g (list_elem_of_here _ _) Hg) as Ha.
  destruct (body a g) as [g1|e g1]; [|done].
  apply IH; [|done]. intros b g2 Hb. apply Hbody. by right.
Qed.

Lemma trimmedStore_refl (g : Store) : trimmedStore g g.
Proof.
  split; [done|]. intros k item Hk. exists item. split; [done|].
  repeat split; auto.
Qed.

Lemma trimmedStore_present (g g' : Store) k :
  trimmedStore g g' → is_Some (oget k g') ↔ is_Some (oget k g).
Proof.
  intros [Hkeys _]. split; intros [v Hv]; apply okeys_oget.
  - rewrite <-Hkeys. by eapply oget_okeys.
  - rewrite Hkeys. by eapply oget_okeys.
Qed.

Lemma trimmedStore_absent (g g' : Store) k :
  trimmedStore g g' → oget k g' = None ↔ oget k g = None.
Proof.
  intros Htr. rewrite !eq_None_not_Some.
  by rewrite (trimmedStore_present g g' k Htr).
Qed.

(** One step of the inner loop keeps the store a trimmed one, and throws a
    [TypeError] if it throws. *)
Lemma strip_trimmed (g g1 : Store) role r :
  trimmedStore g g1 →
  match AccessControl.strip role r g1 with
  | Done g' => trimmedStore g g'
  | Thrown e g' => trimmedStore g g' ∧ e = TypeError
  end.
Proof.
  intros Htr.
  destruct (strip_cases role r g1)
    as [[-> _]|[[-> _]|(roleItem & ext & Hrole & Hext & _ & Hread & ->)]];
    [done|done|].
  pose proof (trimmedStore_present g g1 r Htr) as Hpresent.
  destruct Htr as [Hkeys Hitems]. split.
  - rewrite okeys_oset_present by eauto. done.
  - intros k item Hk.
    destruct (Hitems k item Hk) as (item' & Hk' & Hg & Hx & Hsub & Hkeep).
    destruct (decide (role = k)) as [->|Hne]; [|by exists item'; rewrite oget_oset_ne].
    rewrite oget_oset_eq. eexists. split; [done|].
    rewrite Hrole in Hk'. injection Hk' as <-.
    assert (∀ r0 sc, extension
                    {| grants := grants roleItem; extend := Some (odelete r ext);
                       score := sc |} r0
                  = if decide (r = r0) then None else extension roleItem r0) as Hnew.
    { intros r0 sc. unfold extension. rewrite Hext. simpl. apply oget_odelete. }
    repeat split; simpl.
    + done.
    + intros _. apply Hx. rewrite Hext. eauto.
    + intros _. eauto.
    + intros r0. rewrite Hnew. case_decide; [by left|apply Hsub].
    + intros r0 Hr0 Hp0. rewrite Hnew. case_decide as Heq; [|by apply Hkeep].
      subst r0. exfalso. destruct Hread as [Hr|Hp]; [|congruence].
      apply Hpresent in Hr as [? ?]. congruence.
Qed.

Lemma stripAll_trimmed (g g1 : Store) rs role :
  trimmedStore g g1 →
  match AccessControl.stripAll rs role g1 with
  | Done g' => trimmedStore g g'
  | Thrown e g' => trimmedStore g g' ∧ e = TypeError
  end.
Proof.
  intros Htr. unfold AccessControl.stripAll.
  destruct (oget role g1) as [roleItem|]; [|done].
  destruct (extend roleItem); [|done].
  apply (forEach_keeps (trimmedStore g) (λ e, e = TypeError)); [|done].
  intros r g2 _. apply strip_trimmed.
Qed.

Lemma each_trimmed (g : Store) rs keys :
  match forEach keys (AccessControl.stripAll rs) g with
  | Done g' => trimmedStore g g'
  | Thrown e g' => trimmedStore g g' ∧ e = TypeError
  end.
Proof.
  apply (forEach_keeps (trimmedStore g) (λ e, e = TypeError));
    [|apply trimmedStore_refl].
  intros role g1 _. apply stripAll_trimmed.
Qed.

(** The second loop of [removeRoles] deletes and does nothing else. *)
Lemma forEach_delete rs :
  ∀ g : Store,
    ∃ g', forEach rs (λ role g'', Done (odelete role g'')) g = Done g'
          ∧ ∀ k, oget k g' = if bool_decide (k ∈ rs) then None else oget k g.
Proof.
  induction rs as [|r rs IH]; intros g.
  - exists g. split; [reflexivity|]. intros k.
    destruct (bool_decide (k ∈ [])) eqn:Hk; [|done].
    apply bool_decide_eq_true in Hk. inversion Hk.
  - destruct (IH (odelete r g)) as (g' & Hloop & Hg'). exists g'.
    split; [exact Hloop|].
    intros k. rewrite Hg', oget_odelete.
    destruct (bool_decide (k ∈ rs)) eqn:Hrs, (bool_decide (k ∈ r :: rs)) eqn:Hrrs;
      try apply bool_decide_eq_true in Hrs; try apply bool_decide_eq_false in Hrs;
      try apply bool_decide_eq_true in Hrrs; try apply bool_decide_eq_false in Hrrs;
      try case_decide; set_solver.
Qed.

(** [removeRoles] completes when its first loop does, and then the store is
    the one the first loop leaves, less the roles removed. *)
Lemma removeRoles_done roles (g g' : Store) :
  AccessControl.removeRoles roles g = Done g' →
  ∃ g1, forEach (okeys g) (AccessControl.stripAll (sort roles)) g = Done g1
        ∧ trimmedStore g g1
        ∧ ∀ k, oget k g' = if bool_decide (k ∈ roles) then None else oget k g1.
Proof.
  unfold AccessControl.removeRoles. intros H.
  pose proof (each_trimmed g (sort roles) (okeys g)) as Htr.
  destruct (forEach (okeys g) (AccessControl.stripAll (sort roles)) g) as [g1|e g1];
    [|done].
  exists g1. split; [done|]. split; [done|].
  destruct (forEach_delete (sort roles) g1) as (g2 & Hg2 & Hget).
  rewrite Hg2 in H. injection H as <-. intros k. rewrite Hget.
  repeat case_bool_decide; try done; exfalso; by rewrite sort_elem in *.
Qed.

Lemma strip_clears k r (g1 g2 : Store) item :
  AccessControl.strip k r g1 = Done g2 → oget k g2 = Some item →
  extension item r = None.
Proof.
  destruct (strip_cases k r g1)
    as [[-> (item1 & Hk & Hl)]|[[-> _]|(item1 & ext & Hk & Hext & _ & _ & ->)]];
    [|done|].
  - intros [= <-]. rewrite Hk. intros [= <-].
    apply lists_false in Hl as [Hl|[Hl _]]; [|done].
    unfold extension. by rewrite Hl.
  - intros [= <-]. rewrite oget_oset_eq. intros [= <-].
    unfold extension. simpl. apply oget_odelete_eq.
Qed.

Lemma trimmedStore_cleared (g g' : Store) k item item' r :
  trimmedStore g g' → oget k g = Some item → oget k g' = Some item' →
  extension item r = None → extension item' r = None.
Proof.
  intros [_ Hitems] Hk Hk' Hr.
  destruct (Hitems k item Hk) as (item'' & Hk'' & _ & _ & Hsub & _).
  rewrite Hk' in Hk''. injection Hk'' as <-.
  destruct (Hsub r) as [?|Heq]; [done|congruence].
Qed.

Lemma strip_loop_trimmed (g1 : Store) rs k :
  match forEach rs (AccessControl.strip k) g1 with
  | Done g' => trimmedStore g1 g'
  | Thrown e g' => trimmedStore g1 g' ∧ e = TypeError
  end.
Proof.
  apply (forEach_keeps (trimmedStore g1) (λ e, e = TypeError));
    [|apply trimmedStore_refl].
  intros r g2 _. apply strip_trimmed.
Qed.

Lemma strip_loop_clears k rs :
  ∀ (g1 g2 : Store) r item,
    forEach rs (AccessControl.strip k) g1 = Done g2 →
    r ∈ rs → oget k g2 = Some item → extension item r = None.
Proof.
  induction rs as [|r0 rs IH]; intros g1 g2 r item; simpl; [by inversion 2|].
  destruct (AccessControl.strip k r0 g1) as [ga|] eqn:Hstrip; [|done].
  intros Hloop [->|Hr]%elem_of_cons Hk; [|by eapply IH].
  pose proof (strip_loop_trimmed ga rs k) as Htr. rewrite Hloop in Htr.
  assert (is_Some (oget k ga)) as [itema Ha].
  { apply (trimmedStore_present _ _ k Htr). eauto. }
  eapply trimmedStore_cleared; [exact Htr|exact Ha|exact Hk|].
  by eapply strip_clears.
Qed.

Lemma stripAll_clears k rs (g1 g2 : Store) r item :
  AccessControl.stripAll rs k g1 = Done g2 →
  r ∈ rs → oget k g2 = Some item → extension item r = None.
Proof.
  unfold AccessControl.stripAll.
  destruct (oget k g1) as [roleItem|] eqn:Hk; [|done].
  destruct (extend roleItem) as [ext|] eqn:Hext.
  - apply strip_loop_clears.
  - intros [= <-] _. rewrite Hk. intros [= <-]. unfold extension. by rewrite Hext.
Qed.

Lemma each_clears rs keys :
  ∀ (g g1 : Store) k r item,
    forEach keys (AccessControl.stripAll rs) g = Done g1 →
    k ∈ keys → r ∈ rs → oget k g1 = Some item → extension item r = None.
Proof.
  induction keys as [|k0 keys IH]; intros g g1 k r item; simpl; [by inversion 2|].
  destruct (AccessControl.stripAll rs k0 g) as [ga|] eqn:Hstrip; [|done].
  intros Hloop [->|Hk]%elem_of_cons Hr Hitem; [|by eapply IH].
  pose proof (each_trimmed ga rs keys) as Htr. rewrite Hloop in Htr.
  assert (is_Some (oget k0 ga)) as [itema Ha].
  { apply (trimmedStore_present _ _ k0 Htr). eauto. }
  eapply trimmedStore_cleared; [exact Htr|exact Ha|exact Hitem|].
  by eapply stripAll_clears.
Qed.



(** A step of the inner loop that leaves the store as it finds it: the role has
    no entry for [r], and if it still lists [r] (a member of
    [Object.prototype]) the store does not hold [r] and the score is [NaN]
    already. *)
Lemma strip_fixed k r (g2 : Store) item :
  oget k g2 = Some item → oget r g2 = None → extension item r = None →
  (is_Some (extend item) → protoMember r = true →
   score item = Some PrimFloat.nan) →
  AccessControl.strip k r g2 = Done g2.
Proof.
  intros Hitem Hr Hnone Hnan.
  destruct (strip_cases k r g2)
    as [[Hs _]|[[_ [Hk|(item1 & Hk & Hl & _ & Hp)]]
               |(item1 & ext & Hk & Hext & Hl & _ & Hs)]];
    [done|congruence| |].
  - exfalso. rewrite Hitem in Hk. injection Hk as <-.
    apply lists_true in Hl as [_ [[? ?]|?]]; congruence.
  - rewrite Hitem in Hk. injection Hk as <-. rewrite Hs. f_equal.
    apply oset_same. rewrite Hitem. f_equal.
    apply lists_true in Hl as [Hx [[? ?]|Hp]]; [congruence|].
    unfold scoreOf. rewrite Hr. simpl.
    unfold extension in Hnone. rewrite Hext in Hnone. simpl in Hnone.
    rewrite (odelete_absent ext r Hnone), (Hnan Hx Hp), jsSub_nan.
    destruct item as [gr ex sc]. simpl in *. rewrite Hext.
    by rewrite (Hnan Hx Hp).
Qed.

Lemma stripAll_fixed k rs (g2 : Store) item :
  oget k g2 = Some item →
  (∀ r, r ∈ rs →
        oget r g2 = None ∧ extension item r = None
        ∧ (is_Some (extend item) → protoMember r = true →
           score item = Some PrimFloat.nan)) →
  AccessControl.stripAll rs k g2 = Done g2.
Proof.
  intros Hitem Hfixed. unfold AccessControl.stripAll. rewrite Hitem.
  destruct (extend item) as [ext|] eqn:Hext; [|done].
  induction rs as [|r rs IH]; simpl; [done|].
  destruct (Hfixed r (list_elem_of_here _ _)) as (Hr & Hnone & Hnan).
  rewrite (strip_fixed k r g2 item Hitem Hr Hnone) by (by rewrite Hext).
  apply IH. intros r' Hr'. apply Hfixed. by right.
Qed.

(** Nothing left to remove: [removeRoles] completes and returns the store. *)
Lemma removeRoles_fixed roles (g : Store) :
  (∀ r, r ∈ roles → oget r g = None) →
  (∀ k item r, oget k g = Some item → r ∈ roles →
               extension item r = None
               ∧ (is_Some (extend item) → protoMember r = true →
                  score item = Some PrimFloat.nan)) →
  AccessControl.removeRoles roles g = Done g.
Proof.
  intros Hgone Hclean. unfold AccessControl.removeRoles.
  assert (∀ keys, (∀ k, k ∈ keys → is_Some (oget k g)) →
            forEach keys (AccessControl.stripAll (sort roles)) g = Done g) as Houter.
  { induction keys as [|k keys IH]; intros Hkeys; simpl; [done|].
    destruct (Hkeys k (list_elem_of_here _ _)) as [item Hitem].
    rewrite (stripAll_fixed k (sort roles) g item Hitem).
    - apply IH. intros k' Hk'. apply Hkeys. by right.
    - intros r Hr. apply (proj1 (sort_elem _ _)) in Hr.
      split; [by apply Hgone|by apply (Hclean k item r)]. }
  rewrite Houter by apply okeys_oget.
  assert (∀ r, r ∈ sort roles → oget r g = None) as Hgone'
    by (intros r Hr; apply Hgone; by apply sort_elem).
  revert Hgone'. generalize (sort roles) as rs.
  induction rs as [|r rs IH]; intros Hgone'; simpl; [done|].
  rewrite odelete_absent by (apply Hgone'; left).
  apply IH. intros r' Hr'. apply Hgone'. by right.
Qed.

Lemma removeRoles_clears roles (g g' : Store) k r item :
  AccessControl.removeRoles roles g = Done g' →
  oget k g' = Some item → r ∈ roles → extension item r = None.
Proof.
  intros (g1 & Hloop & Htr & Hget)%removeRoles_done Hk Hr.
  rewrite Hget in Hk. case_bool_decide; [done|].
  eapply (each_clears (sort roles) (okeys g)); [exact Hloop| |by apply sort_elem|exact Hk].
  destruct Htr as [<- _]. by eapply oget_okeys.
Qed.

Lemma removeRoles_throws_TypeError roles (g g' : Store) e :
  AccessControl.removeRoles roles g = Thrown e g' → e = TypeError.
Proof.
  unfold AccessControl.removeRoles. intros Hrun.
  pose proof (each_trimmed g (sort roles) (okeys g)) as Htr.
  destruct (forEach (okeys g) (AccessControl.stripAll (sort roles)) g) as [g1|e1 g1].
  - destruct (forEach_delete (sort roles) g1) as (g2 & Hg2 & _). congruence.
  - injection Hrun as -> ->. apply Htr.
Qed.

(** X6. When [removeRoles] completes, no role left in the store has an entry
    for any of the removed roles in its [$extend]. *)
Theorem removeRoles_strips_extend :
  ∀ (roles : list string) (g g' : Store) (k r : string) (item : RoleItem),
    AccessControl.removeRoles roles g = Done g' →
    oget k g' = Some item → r ∈ roles → extension item r = None.
Proof. intros roles g g' k r item. apply removeRoles_clears. Qed.

Lemma removeRoles_strips_extend_witness :
  ∃ item, oget "admin" (final (AccessControl.removeRoles ["user"] Sample.store))
          = Some item
          ∧ extension item "user" = None.
Proof.
  eexists. split; [reflexivity|].
  apply (removeRoles_strips_extend ["user"] Sample.store
           (final (AccessControl.removeRoles ["user"] Sample.store)) "admin" "user");
    [reflexivity|reflexivity|left].
Defined.

(** X7. Whether it completes or throws, [removeRoles] creates no role, leaves
    the grants of every role it keeps as they were, and adds nothing to any
    [$extend]; and the only error it throws is a [TypeError]. *)
Theorem removeRoles_only_removes :
  ∀ (roles : list string) (g : Store),
    (∀ k item', oget k (final (AccessControl.removeRoles roles g)) = Some item' →
       ∃ item, oget k g = Some item
               ∧ grants item' = grants item
               ∧ ∀ r e, extension item' r = Some e → extension item r = Some e)
    ∧ (∀ e g', AccessControl.removeRoles roles g = Thrown e g' → e = TypeError).
Proof.
  intros roles g.
  assert (∀ g1 k item', trimmedStore g g1 → oget k g1 = Some item' →
            ∃ item, oget k g = Some item ∧ grants item' = grants item
                    ∧ ∀ r e, extension item' r = Some e → extension item r = Some e)
    as Hshape.
  { intros g1 k item' Htr Hk.
    assert (is_Some (oget k g)) as [item Hitem].
    { apply (trimmedStore_present _ _ k Htr). eauto. }
    destruct Htr as [_ Hitems].
    destruct (Hitems k item Hitem) as (item'' & Hk'' & Hg & _ & Hsub & _).
    rewrite Hk in Hk''. injection Hk'' as <-.
    exists item. split; [done|]. split; [done|].
    intros r e He. destruct (Hsub r); congruence. }
  destruct (AccessControl.removeRoles roles g) as [g'|e g'] eqn:Hrun.
  - split; [|done]. apply removeRoles_done in Hrun as (g1 & _ & Htr & Hget).
    intros k item'. simpl. rewrite Hget. case_bool_decide; [done|].
    by apply Hshape.
  - unfold AccessControl.removeRoles in Hrun.
    pose proof (each_trimmed g (sort roles) (okeys g)) as Htr.
    destruct (forEach (okeys g) (AccessControl.stripAll (sort roles)) g) as [g1|e1 g1].
    + destruct (forEach_delete (sort roles) g1) as (g2 & Hg2 & _). congruence.
    + injection Hrun as -> ->. destruct Htr as [Htr ->]. split.
      * intros k item'. simpl. by apply Hshape.
      * by intros ? ? [= <- _].
Qed.

Lemma removeRoles_only_removes_witness :
  ∃ item, oget "admin" Sample.store = Some item
          ∧ grants (default newRole
                      (oget "admin" (final (AccessControl.removeRoles ["user"] Sample.store))))
            = grants item.
Proof.
  destruct (removeRoles_only_removes ["user"] Sample.store) as [H _].
  destruct (H "admin"
              (default newRole
                 (oget "admin" (final (AccessControl.removeRoles ["user"] Sample.store))))
              eq_refl) as (item & Hitem & Hgrants & _).
  exists item. split; assumption.
Defined.

(** Without a dangling entry no step of [removeRoles] throws. *)
Lemma strip_no_throw (g g1 : Store) roles role r :
  ¬ dangling g roles → r ∈ roles → is_Some (oget role g) →
  trimmedStore g g1 →
  match AccessControl.strip role r g1 with
  | Done g' => trimmedStore g g'
  | Thrown e g' => trimmedStore g g' ∧ False
  end.
Proof.
  intros Hnd Hr Hrole Htr.
  pose proof (strip_trimmed g g1 role r Htr) as Hstep.
  destruct (AccessControl.strip role r g1) as [g'|e g'] eqn:Hstrip; [done|].
  split; [apply Hstep|]. apply Hnd.
  destruct Hrole as [item Hitem].
  pose proof (trimmedStore_absent g g1 r Htr) as Habsent.
  destruct Htr as [Hkeys Hitems].
  destruct (Hitems role item Hitem) as (item1 & Hitem1 & _ & _ & Hsub & _).
  destruct (strip_cases role r g1)
    as [[Hs _]|[[_ [Hk|(item1' & Hk & Hl & Hr1 & Hp)]]
               |(? & ? & _ & _ & _ & _ & Hs)]];
    [congruence|congruence| |congruence].
  rewrite Hitem1 in Hk. injection Hk as <-.
  apply lists_true in Hl as [_ [[entry Hlisted]|?]]; [|congruence].
  exists role, item, r. split; [done|]. split; [done|]. split.
  - destruct (Hsub r) as [?|<-]; [congruence|eauto].
  - split; [by apply Habsent|done].
Qed.

Lemma each_no_throw (g : Store) roles :
  ¬ dangling g roles →
  ∃ g1, forEach (okeys g) (AccessControl.stripAll (sort roles)) g = Done g1.
Proof.
  intros Hnd.
  assert (match forEach (okeys g) (AccessControl.stripAll (sort roles)) g with
          | Done g' => trimmedStore g g'
          | Thrown _ g' => trimmedStore g g' ∧ False
          end) as Hloop.
  { apply (forEach_keeps (trimmedStore g) (λ _, False)); [|apply trimmedStore_refl].
    intros role g1' Hrole Htr. unfold AccessControl.stripAll.
    assert (is_Some (oget role g)) as Hpresent by by apply okeys_oget.
    assert (is_Some (oget role g1')) as [item1 Hitem1]
      by by apply (trimmedStore_present _ _ role Htr).
    rewrite Hitem1. destruct (extend item1); [|done].
    apply (forEach_keeps (trimmedStore g) (λ _, False)); [|done].
    intros r g2 Hr. apply (proj1 (sort_elem _ _)) in Hr.
    by apply (strip_no_throw g g2 roles). }
  destruct (forEach (okeys g) (AccessControl.stripAll (sort roles)) g) as [g1|e g1];
    [by eexists|by destruct Hloop].
Qed.

(** X8. [removeRoles] throws exactly when some role of the store has in its
    [$extend] an entry for a role to remove that [this._grants] reads as
    [undefined] (the store does not hold it, and it is not the name of a
    member of [Object.prototype]): then it throws a [TypeError], at the read of
    [this._grants[role].score]; otherwise it completes. *)
Theorem removeRoles_throws_on_dangling :
  ∀ (roles : list string) (g : Store),
    (dangling g roles → ∃ g', AccessControl.removeRoles roles g = Thrown TypeError g')
    ∧ (¬ dangling g roles → ∃ g', AccessControl.removeRoles roles g = Done g').
Proof.
  intros roles g. split.
  - intros (k & item & r & Hk & Hr & Hlisted & Habsent & Hproto).
    destruct (AccessControl.removeRoles roles g) as [g'|e g'] eqn:Hrun.
    + exfalso. apply removeRoles_done in Hrun as (g1 & Hloop & Htr & _).
      assert (is_Some (oget k g1)) as [item1 Hitem1].
      { apply (trimmedStore_present _ _ k Htr). eauto. }
      assert (extension item1 r = None) as Hcleared.
      { eapply (each_clears (sort roles) (okeys g)); [exact Hloop| | |exact Hitem1].
        - by eapply oget_okeys.
        - by apply sort_elem. }
      destruct Htr as [_ Hitems].
      destruct (Hitems k item Hk) as (item1' & Hitem1' & _ & _ & _ & Hkeep).
      rewrite Hitem1 in Hitem1'. injection Hitem1' as <-.
      rewrite (Hkeep r Habsent Hproto) in Hcleared. rewrite Hcleared in Hlisted.
      by destruct Hlisted.
    + rewrite (removeRoles_throws_TypeError roles g g' e Hrun). by eexists.
  - intros Hnd. destruct (each_no_throw g roles Hnd) as [g1 Hg1].
    unfold AccessControl.removeRoles. rewrite Hg1.
    destruct (forEach_delete (sort roles) g1) as (g2 & -> & _). by eexists.
Qed.

Lemma removeRoles_throws_on_dangling_witness :
  (∃ g', AccessControl.removeRoles ["user"] [("admin", default newRole (oget "admin" Sample.store))]
         = Thrown TypeError g')
  ∧ (∃ g', AccessControl.removeRoles ["toString"] Sample.store = Done g').
Proof.
  split.
  - apply removeRoles_throws_on_dangling.
    exists "admin", (default newRole (oget "admin" Sample.store)), "user".
    split; [reflexivity|]. split; [left|].
    split; [eexists; reflexivity|]. split; reflexivity.
  - apply removeRoles_throws_on_dangling.
    intros (k & item & r & Hk & Hr & Hlisted & Habsent & Hproto).
    apply list_elem_of_singleton in Hr. subst r. discriminate Hproto.
Defined.

(** A step of the inner loop leaves alone every role item that does not list
    the role it removes. *)
Lemma strip_keeps_item role r k item (g2 : Store) :
  oget k g2 = Some item → lists item r = false →
  oget k (final (AccessControl.strip role r g2)) = Some item.
Proof.
  intros Hitem Hl.
  destruct (strip_cases role r g2)
    as [[-> _]|[[-> _]|(item1 & ext & Hk & _ & Hl1 & _ & ->)]]; [done|done|].
  simpl. destruct (decide (role = k)) as [->|Hne]; [|by rewrite oget_oset_ne].
  congruence.
Qed.

(** X9. When [removeRoles] completes, a role that is not removed and that
    lists none of the removed roles (its [$extend], if it has one, has no
    entry for any of them, and none of them is the name of a member of
    [Object.prototype]) is left exactly as it was: grants, [$extend] and
    score. *)
Theorem removeRoles_leaves_unrelated :
  ∀ (roles : list string) (g g' : Store) (k : string) (item : RoleItem),
    AccessControl.removeRoles roles g = Done g' →
    k ∉ roles → oget k g = Some item →
    (∀ r, r ∈ roles → lists item r = false) →
    oget k g' = Some item.
Proof.
  intros roles g g' k item (g1 & Hloop & _ & Hget)%removeRoles_done Hk Hitem Hnone.
  rewrite Hget, (bool_decide_eq_false_2 (k ∈ roles)) by done.
  assert (match forEach (okeys g) (AccessControl.stripAll (sort roles)) g with
          | Done g2 => oget k g2 = Some item
          | Thrown _ g2 => oget k g2 = Some item ∧ True
          end) as Hkeeps; [|by rewrite Hloop in Hkeeps].
  apply (forEach_keeps (λ g2, oget k g2 = Some item) (λ _, True)); [|done].
  intros role g2 _ Hg2. unfold AccessControl.stripAll.
  destruct (oget role g2) as [roleItem|]; [|done].
  destruct (extend roleItem); [|done].
  apply (forEach_keeps (λ g4, oget k g4 = Some item) (λ _, True)); [|done].
  intros r g4 Hr Hg4. apply (proj1 (sort_elem _ _)) in Hr.
  pose proof (strip_keeps_item role r k item g4 Hg4 (Hnone r Hr)) as Hstep.
  by destruct (AccessControl.strip role r g4).
Qed.

Lemma removeRoles_leaves_unrelated_witness :
  oget "user" (final (AccessControl.removeRoles ["admin"; "toString"] Sample.store))
  = oget "user" Sample.store.
Proof.
  apply (removeRoles_leaves_unrelated ["admin"; "toString"] Sample.store);
    [reflexivity| |reflexivity|].
  - intros Hin. apply elem_of_cons in Hin as [Hin|Hin]; [discriminate Hin|].
    apply list_elem_of_singleton in Hin. discriminate Hin.
  - intros r _. reflexivity.
Defined.

(** *** Removing the same roles again

    A role that has an [$extend] lists every member of [Object.prototype];
    when such a name is among the roles to remove and the store holds no role
    of that name, the score of the role is [NaN] after the call, and stays
    so. *)

Lemma strip_final_trimmed role r (g2 : Store) :
  trimmedStore g2 (final (AccessControl.strip role r g2)).
Proof.
  pose proof (strip_trimmed g2 g2 role r (trimmedStore_refl g2)) as Hstep.
  destruct (AccessControl.strip role r g2); [done|apply Hstep].
Qed.

Lemma stripAll_final_trimmed role rs (g2 : Store) :
  trimmedStore g2 (final (AccessControl.stripAll rs role g2)).
Proof.
  pose proof (stripAll_trimmed g2 g2 rs role (trimmedStore_refl g2)) as Hstep.
  destruct (AccessControl.stripAll rs role g2); [done|apply Hstep].
Qed.

Lemma strip_nan_stays role r k (g2 : Store) :
  (∀ item, oget k g2 = Some item → is_Some (extend item) →
           score item = Some PrimFloat.nan) →
  ∀ item, oget k (final (AccessControl.strip role r g2)) = Some item →
          is_Some (extend item) → score item = Some PrimFloat.nan.
Proof.
  intros Hnan.
  destruct (strip_cases role r g2)
    as [[-> _]|[[-> _]|(item1 & ext & Hk & Hext & _ & _ & ->)]]; [done|done|].
  simpl. destruct (decide (role = k)) as [->|Hne]; [|by rewrite oget_oset_ne].
  rewrite oget_oset_eq. intros item [= <-] _. simpl.
  rewrite (Hnan item1 Hk) by (rewrite Hext; eauto). apply jsSub_nan.
Qed.

Lemma strip_nan k r (g2 ga : Store) :
  AccessControl.strip k r g2 = Done ga →
  protoMember r = true → oget r g2 = None →
  ∀ item, oget k ga = Some item → is_Some (extend item) →
          score item = Some PrimFloat.nan.
Proof.
  intros Hstrip Hp Hr.
  destruct (strip_cases k r g2)
    as [[Hs (item1 & Hk & Hl)]|[[Hs _]|(item1 & ext & Hk & Hext & _ & _ & Hs)]];
    rewrite Hs in Hstrip; [|done|]; injection Hstrip as <-.
  - intros item Hitem Hx. rewrite Hk in Hitem. injection Hitem as <-.
    apply lists_false in Hl as [Hl|[_ ?]]; [|congruence].
    rewrite Hl in Hx. by destruct Hx.
  - rewrite oget_oset_eq. intros item [= <-] _. simpl.
    unfold scoreOf. rewrite Hr. apply jsSub_undefined.
Qed.

Lemma strip_loop_nan k rs :
  ∀ (g2 ga : Store) r,
    forEach rs (AccessControl.strip k) g2 = Done ga →
    r ∈ rs → protoMember r = true → oget r g2 = None →
    ∀ item, oget k ga = Some item → is_Some (extend item) →
            score item = Some PrimFloat.nan.
Proof.
  induction rs as [|r0 rs IH]; intros g2 ga r; simpl; [by inversion 2|].
  pose proof (strip_final_trimmed k r0 g2) as Htr.
  destruct (AccessControl.strip k r0 g2) as [gb|] eqn:Hstrip; [|done].
  simpl in Htr. intros Hloop [->|Hr]%elem_of_cons Hp Habsent.
  - assert (match forEach rs (AccessControl.strip k) gb with
            | Done g3 => ∀ item, oget k g3 = Some item → is_Some (extend item) →
                                 score item = Some PrimFloat.nan
            | Thrown _ g3 => (∀ item, oget k g3 = Some item → is_Some (extend item) →
                                      score item = Some PrimFloat.nan) ∧ True
            end) as Hkeeps; [|by rewrite Hloop in Hkeeps].
    apply (forEach_keeps
             (λ g3, ∀ item, oget k g3 = Some item → is_Some (extend item) →
                            score item = Some PrimFloat.nan) (λ _, True)).
    + intros r g3 _ Hnan. pose proof (strip_nan_stays k r k g3 Hnan) as Hstep.
      by destruct (AccessControl.strip k r g3).
    + by apply (strip_nan k r0 g2).
  - apply (IH gb ga r Hloop Hr Hp). by apply (trimmedStore_absent g2 gb r Htr).
Qed.

Lemma stripAll_nan k rs (g2 ga : Store) r :
  AccessControl.stripAll rs k g2 = Done ga →
  r ∈ rs → protoMember r = true → oget r g2 = None →
  ∀ item, oget k ga = Some item → is_Some (extend item) →
          score item = Some PrimFloat.nan.
Proof.
  unfold AccessControl.stripAll.
  destruct (oget k g2) as [roleItem|] eqn:Hk; [|done].
  destruct (extend roleItem) as [ext|] eqn:Hext; [apply strip_loop_nan|].
  intros [= <-] _ _ _ item Hitem Hx. rewrite Hk in Hitem. injection Hitem as <-.
  rewrite Hext in Hx. by destruct Hx.
Qed.

Lemma stripAll_nan_stays role rs k (g2 : Store) :
  (∀ item, oget k g2 = Some item → is_Some (extend item) →
           score item = Some PrimFloat.nan) →
  ∀ item, oget k (final (AccessControl.stripAll rs role g2)) = Some item →
          is_Some (extend item) → score item = Some PrimFloat.nan.
Proof.
  intros Hnan. unfold AccessControl.stripAll.
  destruct (oget role g2) as [roleItem|]; [|done].
  destruct (extend roleItem); [|done].
  assert (match forEach rs (AccessControl.strip role) g2 with
          | Done g3 => ∀ item, oget k g3 = Some item → is_Some (extend item) →
                               score item = Some PrimFloat.nan
          | Thrown _ g3 => (∀ item, oget k g3 = Some item → is_Some (extend item) →
                                    score item = Some PrimFloat.nan) ∧ True
          end) as Hkeeps.
  { apply (forEach_keeps
             (λ g3, ∀ item, oget k g3 = Some item → is_Some (extend item) →
                            score item = Some PrimFloat.nan) (λ _, True)); [|done].
    intros r g3 _ Hnan3. pose proof (strip_nan_stays role r k g3 Hnan3) as Hstep.
    by destruct (AccessControl.strip role r g3). }
  destruct (forEach rs (AccessControl.strip role) g2); [done|apply Hkeeps].
Qed.

Lemma each_nan rs keys :
  ∀ (g2 g1 : Store) k r,
    forEach keys (AccessControl.stripAll rs) g2 = Done g1 →
    k ∈ keys → r ∈ rs → protoMember r = true → oget r g2 = None →
    ∀ item, oget k g1 = Some item → is_Some (extend item) →
            score item = Some PrimFloat.nan.
Proof.
  induction keys as [|k0 keys IH]; intros g2 g1 k r; simpl; [by inversion 2|].
  pose proof (stripAll_final_trimmed k0 rs g2) as Htr.
  destruct (AccessControl.stripAll rs k0 g2) as [ga|] eqn:Hstrip; [|done].
  simpl in Htr. intros Hloop [->|Hk]%elem_of_cons Hr Hp Habsent.
  - assert (match forEach keys (AccessControl.stripAll rs) ga with
            | Done g3 => ∀ item, oget k0 g3 = Some item → is_Some (extend item) →
                                 score item = Some PrimFloat.nan
            | Thrown _ g3 => (∀ item, oget k0 g3 = Some item → is_Some (extend item) →
                                      score item = Some PrimFloat.nan) ∧ True
            end) as Hkeeps; [|by rewrite Hloop in Hkeeps].
    apply (forEach_keeps
             (λ g3, ∀ item, oget k0 g3 = Some item → is_Some (extend item) →
                            score item = Some PrimFloat.nan) (λ _, True)).
    + intros role g3 _ Hnan.
      pose proof (stripAll_nan_stays role rs k0 g3 Hnan) as Hstep.
      by destruct (AccessControl.stripAll rs role g3).
    + by apply (stripAll_nan k0 rs g2 ga r).
  - apply (IH ga g1 k r Hloop Hk Hr Hp). by apply (trimmedStore_absent g2 ga r Htr).
Qed.

Lemma removeRoles_nan roles (g g' : Store) k r item :
  AccessControl.removeRoles roles g = Done g' →
  r ∈ roles → protoMember r = true → oget r g = None →
  oget k g' = Some item → is_Some (extend item) →
  score item = Some PrimFloat.nan.
Proof.
  intros (g1 & Hloop & Htr & Hget)%removeRoles_done Hr Hp Habsent Hk.
  rewrite Hget in Hk. case_bool_decide; [done|].
  apply (each_nan (sort roles) (okeys g) g g1 k r); try done.
  - destruct Htr as [<- _]. by eapply oget_okeys.
  - by apply sort_elem.
Qed.

(** X10. Removing the same roles a second time changes nothing, as long as
    the store holds no role to remove that is named like a member of
    [Object.prototype]: when [removeRoles] completes, running it again on the
    result completes and returns that result. *)
Theorem removeRoles_twice :
  ∀ (roles : list string) (g g' : Store),
    (∀ r, r ∈ roles → protoMember r = true → oget r g = None) →
    AccessControl.removeRoles roles g = Done g' →
    AccessControl.removeRoles roles g' = Done g'.
Proof.
  intros roles g g' Hnames Hrun. apply removeRoles_fixed.
  - intros r Hr. apply removeRoles_done in Hrun as (g1 & _ & _ & Hget).
    by rewrite Hget, (bool_decide_eq_true_2 (r ∈ roles)).
  - intros k item r Hk Hr. split; [by eapply removeRoles_clears|].
    intros Hx Hp. eapply removeRoles_nan; eauto.
Qed.

Lemma removeRoles_twice_witness :
  AccessControl.removeRoles ["toString"; "user"]
    (final (AccessControl.removeRoles ["toString"; "user"] Sample.store))
  = Done (final (AccessControl.removeRoles ["toString"; "user"] Sample.store)).
Proof.
  apply (removeRoles_twice ["toString"; "user"] Sample.store); [|reflexivity].
  intros r Hr Hp. apply elem_of_cons in Hr as [->|Hr]; [reflexivity|].
  apply list_elem_of_singleton in Hr. subst r. discriminate Hp.
Defined.

(** With a role of such a name in the store the second call is not idle: the
    first call takes the score of the role [toString], the second one, the
    role being gone, takes [undefined]. *)
Example removeRoles_again_prototype_name :
  let g := [("toString", {| grants := []; extend := None; score := Some 1%float |});
            ("admin", {| grants := []; extend := Some []; score := Some 3%float |})] in
  AccessControl.removeRoles ["toString"] g
  = Done [("admin", {| grants := []; extend := Some []; score := Some 2%float |})]
  ∧ AccessControl.removeRoles ["toString"] (final (AccessControl.removeRoles ["toString"] g))
    = Done [("admin", {| grants := []; extend := Some [];
                         score := Some PrimFloat.nan |})].
Proof. split; reflexivity. Qed.

(** *** The order of the roles given *)

Lemma ascii_compare_refl a : Ascii.compare a a = Eq.
Proof. unfold Ascii.compare. apply N.compare_refl. Qed.

Lemma ascii_compare_lt_trans a b c :
  Ascii.compare a b = Lt → Ascii.compare b c = Lt → Ascii.compare a c = Lt.
Proof.
  unfold Ascii.compare. rewrite !N.compare_lt_iff. apply N.lt_trans.
Qed.

Lemma string_compare_lt_trans s1 :
  ∀ s2 s3, String.compare s1 s2 = Lt → String.compare s2 s3 = Lt →
           String.compare s1 s3 = Lt.
Proof.
  induction s1 as [|a s1 IH]; intros [|b s2] [|c s3]; simpl; try done.
  destruct (Ascii.compare a b) eqn:Hab; [|clear IH|done];
    destruct (Ascii.compare b c) eqn:Hbc; try done.
  - apply Ascii.compare_eq_iff in Hab as ->. apply Ascii.compare_eq_iff in Hbc as ->.
    rewrite ascii_compare_refl. apply IH.
  - apply Ascii.compare_eq_iff in Hab as ->. by rewrite Hbc.
  - apply Ascii.compare_eq_iff in Hbc as <-. by rewrite Hab.
  - by rewrite (ascii_compare_lt_trans a b c).
Qed.

Lemma string_leb_trans s1 s2 s3 :
  String.leb s1 s2 = true → String.leb s2 s3 = true → String.leb s1 s3 = true.
Proof.
  unfold String.leb.
  destruct (String.compare s1 s2) eqn:H12; [|intros _|done].
  - apply String.compare_eq_iff in H12 as ->. done.
  - destruct (String.compare s2 s3) eqn:H23; [|intros _|done].
    + apply String.compare_eq_iff in H23 as <-. by rewrite H12.
    + by rewrite (string_compare_lt_trans s1 s2 s3).
Qed.

#[local] Instance string_leb_transitive : Transitive (λ a b, String.leb a b = true).
Proof. intros a b c. apply string_leb_trans. Qed.

#[local] Instance string_leb_antisymm : AntiSymm (=) (λ a b, String.leb a b = true).
Proof. intros a b. apply String.leb_antisym. Qed.

Lemma insert_sorted_perm s l : insert_sorted s l ≡ₚ s :: l.
Proof.
  induction l as [|x l IH]; simpl; [done|].
  destruct (String.leb s x); [done|]. rewrite IH. apply perm_swap.
Qed.

Lemma sort_perm l : sort l ≡ₚ l.
Proof.
  unfold sort. induction l as [|x l IH]; simpl; [done|].
  by rewrite insert_sorted_perm, IH.
Qed.

Lemma insert_sorted_Sorted s l :
  Sorted (λ a b, String.leb a b = true) l →
  Sorted (λ a b, String.leb a b = true) (insert_sorted s l).
Proof.
  induction 1 as [|x l Hl IH Hhd]; simpl; [by repeat constructor|].
  destruct (String.leb s x) eqn:Hsx.
  - constructor; [by constructor|by constructor].
  - constructor; [done|].
    assert (String.leb x s = true) as Hxs.
    { destruct (String.leb_total s x); congruence. }
    destruct Hhd as [|y l Hxy]; simpl; [by constructor|].
    destruct (String.leb s y); by constructor.
Qed.

Lemma sort_Sorted l : Sorted (λ a b, String.leb a b = true) (sort l).
Proof.
  unfold sort. induction l as [|x l IH]; simpl; [constructor|].
  by apply insert_sorted_Sorted.
Qed.

Lemma sort_permutation_eq l l' : l ≡ₚ l' → sort l = sort l'.
Proof.
  intros Hp. apply (Sorted_unique (λ a b, String.leb a b = true));
    [apply sort_Sorted|apply sort_Sorted|].
  by rewrite !sort_perm.
Qed.

(** X11. The order in which the roles to remove are given does not matter:
    [removeRoles] sorts them first, so any permutation of the list has the
    same outcome, store and error alike. *)
Theorem removeRoles_order_irrelevant :
  ∀ (roles roles' : list string) (g : Store),
    roles' ≡ₚ roles →
    AccessControl.removeRoles roles' g = AccessControl.removeRoles roles g.
Proof.
  intros roles roles' g Hp. unfold AccessControl.removeRoles.
  by rewrite (sort_permutation_eq roles' roles Hp).
Qed.

Lemma removeRoles_order_irrelevant_witness :
  AccessControl.removeRoles ["user"; "admin"] Sample.store
  = AccessControl.removeRoles ["admin"; "user"] Sample.store.
Proof. apply removeRoles_order_irrelevant, perm_swap. Defined.

(** *** Scores *)

Lemma takeScore_ext (g : Store) item item' rs :
  (∀ r, r ∈ rs → lists item' r = lists item r) →
  ∀ acc, fold_left (takeScore g item') rs acc = fold_left (takeScore g item) rs acc.
Proof.
  induction rs as [|r rs IH]; intros Hsame acc; simpl; [done|].
  unfold takeScore at 2 4. rewrite (Hsame r) by left.
  apply IH. intros r' Hr'. apply Hsame. by right.
Qed.

Lemma takeScore_none (g : Store) item rs :
  extend item = None →
  ∀ acc, fold_left (takeScore g item) rs acc = acc.
Proof.
  intros Hext. induction rs as [|r rs IH]; intros acc; simpl; [done|].
  unfold takeScore at 2. unfold lists. rewrite Hext. apply IH.
Qed.

Lemma strip_other role r k (g2 : Store) :
  k ≠ role → oget k (final (AccessControl.strip role r g2)) = oget k g2.
Proof.
  intros Hne.
  destruct (strip_cases role r g2)
    as [[-> _]|[[-> _]|(item1 & ext & _ & _ & _ & _ & ->)]]; [done|done|].
  simpl. by rewrite oget_oset_ne.
Qed.

Lemma stripAll_other role rs k (g2 : Store) :
  k ≠ role → oget k (final (AccessControl.stripAll rs role g2)) = oget k g2.
Proof.
  intros Hne. unfold AccessControl.stripAll.
  destruct (oget role g2) as [roleItem|]; [|done].
  destruct (extend roleItem); [|done].
  revert g2. induction rs as [|r rs IH]; intros g2; simpl; [done|].
  pose proof (strip_other role r k g2 Hne) as Hstep.
  destruct (AccessControl.strip role r g2) as [g3|e g3]; [|done].
  rewrite IH. exact Hstep.
Qed.

Lemma each_other rs keys k :
  k ∉ keys →
  ∀ g2 g1 : Store,
    forEach keys (AccessControl.stripAll rs) g2 = Done g1 → oget k g1 = oget k g2.
Proof.
  induction keys as [|role keys IH]; intros Hk g2 g1; simpl; [by intros [= <-]|].
  apply not_elem_of_cons in Hk as [Hne Hk].
  pose proof (stripAll_other role rs k g2 Hne) as Hstep.
  destruct (AccessControl.stripAll rs role g2) as [ga|]; [|done].
  intros Hloop. rewrite (IH Hk ga g1 Hloop). exact Hstep.
Qed.

Section RemoveScores.

Variables (g : Store) (roles : list string).

(** The removed roles do not list one another. *)
Hypothesis unrelated :
  ∀ r r' item, r ∈ roles → r' ∈ roles → oget r g = Some item →
               lists item r' = false.

Lemma strip_removedKept role r (g2 : Store) :
  r ∈ roles → removedKept g roles g2 →
  removedKept g roles (final (AccessControl.strip role r g2)).
Proof.
  intros Hr Hkept r' Hr'. specialize (Hkept r' Hr').
  destruct (oget r' g) as [item|] eqn:Hitem.
  - apply strip_keeps_item; [done|]. by apply (unrelated r' r).
  - by apply (trimmedStore_absent g2 _ r' (strip_final_trimmed role r g2)).
Qed.

Lemma strip_loop_removedKept role rs :
  ∀ g2 : Store, (∀ r, r ∈ rs → r ∈ roles) → removedKept g roles g2 →
                removedKept g roles (final (forEach rs (AccessControl.strip role) g2)).
Proof.
  induction rs as [|r rs IH]; intros g2 Hrs Hkept; simpl; [done|].
  pose proof (strip_removedKept role r g2 (Hrs r (list_elem_of_here _ _)) Hkept) as Hstep.
  destruct (AccessControl.strip role r g2) as [g3|e g3]; [|done].
  apply IH; [|done]. intros r' Hr'. apply Hrs. by right.
Qed.

Lemma stripAll_removedKept role rs (g2 : Store) :
  (∀ r, r ∈ rs → r ∈ roles) → removedKept g roles g2 →
  removedKept g roles (final (AccessControl.stripAll rs role g2)).
Proof.
  intros Hrs Hkept. unfold AccessControl.stripAll.
  destruct (oget role g2) as [roleItem|]; [|done].
  destruct (extend roleItem); [|done].
  by apply strip_loop_removedKept.
Qed.

(** One step of the inner loop on a kept role [k]: it takes the score of [r]
    if [k] lists [r], and [k] lists the other roles as before. *)
Lemma strip_score k r (g2 ga : Store) item :
  r ∈ roles → removedKept g roles g2 → oget k g2 = Some item →
  AccessControl.strip k r g2 = Done ga →
  ∃ itema, oget k ga = Some itema
           ∧ score itema = takeScore g item (score item) r
           ∧ ∀ r', r' ≠ r → lists itema r' = lists item r'.
Proof.
  intros Hr Hkept Hitem Hstrip. unfold takeScore.
  destruct (strip_cases k r g2)
    as [[Hs (item1 & Hk & Hl)]|[[Hs _]|(item1 & ext & Hk & Hext & Hl & _ & Hs)]];
    rewrite Hs in Hstrip; [|done|]; injection Hstrip as <-;
    rewrite Hitem in Hk; injection Hk as <-.
  - exists item. by rewrite Hl.
  - rewrite oget_oset_eq, Hl. eexists. split; [done|]. split.
    + simpl. unfold scoreOf. by rewrite (Hkept r Hr).
    + intros r' Hne. unfold lists. simpl. rewrite Hext.
      by rewrite oget_odelete_ne.
Qed.

(** The inner loop on a kept role [k]. *)
Lemma strip_loop_score k rs :
  NoDup rs → (∀ r, r ∈ rs → r ∈ roles) →
  ∀ (g2 g3 : Store) item,
    removedKept g roles g2 → oget k g2 = Some item →
    forEach rs (AccessControl.strip k) g2 = Done g3 →
    ∃ item', oget k g3 = Some item'
             ∧ score item' = fold_left (takeScore g item) rs (score item).
Proof.
  induction 1 as [|r rs Hr Hnd IH]; intros Hrs g2 g3 item Hkept Hitem; simpl.
  - intros [= <-]. by exists item.
  - assert (r ∈ roles) as Hrroles by (apply Hrs; left).
    pose proof (strip_removedKept k r g2 Hrroles Hkept) as Hkept'.
    destruct (AccessControl.strip k r g2) as [ga|] eqn:Hstrip; [|done].
    simpl in Hkept'. intros Hloop.
    destruct (strip_score k r g2 ga item Hrroles Hkept Hitem Hstrip)
      as (itema & Ha & Hscore & Hothers).
    destruct (IH (λ r' Hr', Hrs r' (list_elem_of_further _ _ _ Hr'))
                ga g3 itema Hkept' Ha Hloop) as (item' & Hk3 & Hscore3).
    exists item'. split; [done|].
    rewrite Hscore3, Hscore. apply takeScore_ext.
    intros r' Hr'. apply Hothers. by intros ->.
Qed.

(** The first loop on a kept role [k], whose item in [g] is [item]. *)
Lemma each_score k item rs keys :
  NoDup rs → (∀ r, r ∈ rs → r ∈ roles) → NoDup keys →
  ∀ g2 g1 : Store,
    removedKept g roles g2 →
    forEach keys (AccessControl.stripAll rs) g2 = Done g1 →
    oget k g2 = Some item → k ∈ keys →
    ∃ item', oget k g1 = Some item'
             ∧ score item' = fold_left (takeScore g item) rs (score item).
Proof.
  intros Hnd Hrs. induction 1 as [|role keys Hrole Hkeys IH]; intros g2 g1 Hkept;
    simpl; [by inversion 3|].
  pose proof (stripAll_removedKept role rs g2 Hrs Hkept) as Hkept'.
  pose proof (stripAll_other role rs k g2) as Hother.
  destruct (AccessControl.stripAll rs role g2) as [ga|] eqn:Hstrip; [|done].
  simpl in Hkept', Hother. intros Hloop Hitem [->|Hk]%elem_of_cons.
  - rewrite (each_other rs keys role Hrole ga g1 Hloop).
    unfold AccessControl.stripAll in Hstrip. rewrite Hitem in Hstrip.
    destruct (extend item) as [ext|] eqn:Hext.
    + by apply (strip_loop_score role rs Hnd Hrs g2).
    + injection Hstrip as <-. exists item. split; [done|].
      by rewrite takeScore_none.
  - apply (IH ga g1 Hkept' Hloop); [|done].
    rewrite Hother; [done|]. by intros ->.
Qed.

End RemoveScores.

(** X12. Score bookkeeping of [removeRoles]: when the roles to remove are
    given once each and do not list one another, and the call completes, the
    score of every role that stays is its score before, less, one after the
    other in the order of the sorted roles, the score of each removed role it
    listed; the subtraction is that of IEEE doubles, and what is taken for a
    member of [Object.prototype] that is no role of the store is [undefined],
    which leaves [NaN]. *)
Theorem removeRoles_score :
  ∀ (roles : list string) (g g' : Store) (k : string) (item : RoleItem),
    NoDup roles → NoDup (AccessControl.getRoles g) →
    (∀ r r' it, r ∈ roles → r' ∈ roles → oget r g = Some it → lists it r' = false) →
    AccessControl.removeRoles roles g = Done g' →
    k ∉ roles → oget k g = Some item →
    ∃ item', oget k g' = Some item'
             ∧ score item' = scoreAfter g item roles.
Proof.
  intros roles g g' k item Hnd Hkeys Hunrel (g1 & Hloop & _ & Hget)%removeRoles_done
    Hk Hitem.
  rewrite Hget, (bool_decide_eq_false_2 (k ∈ roles)) by done.
  apply (each_score g roles Hunrel k item (sort roles) (okeys g)) with (g2 := g);
    try done.
  - by rewrite sort_perm.
  - intros r. apply sort_elem.
  - by eapply oget_okeys.
Qed.

Lemma removeRoles_score_witness :
  (∃ item', oget "admin" (final (AccessControl.removeRoles ["user"] Sample.store))
            = Some item'
            ∧ score item' = Some 1%float)
  ∧ (∃ item', oget "admin" (final (AccessControl.removeRoles ["toString"; "user"]
                                     Sample.store))
              = Some item'
              ∧ score item' = Some PrimFloat.nan).
Proof.
  assert (∀ r r' it, oget r Sample.store = Some it → r ≠ "admin" →
                     lists it r' = false) as Hunrel.
  { intros r r' it Hit Hr. apply oget_elem in Hit.
    apply elem_of_cons in Hit as [Hit|Hit]; [by injection Hit as -> ->|].
    apply list_elem_of_singleton in Hit. by injection Hit as -> ->. }
  assert (NoDup (AccessControl.getRoles Sample.store)) as Hkeys.
  { apply NoDup_cons. split; [|apply NoDup_singleton].
    intros Hin. apply list_elem_of_singleton in Hin. discriminate Hin. }
  split.
  - apply (removeRoles_score ["user"] Sample.store _ "admin"
             (default newRole (oget "admin" Sample.store)));
      [apply NoDup_singleton|exact Hkeys| |reflexivity| |reflexivity].
    + intros r r' it Hr _ Hit. apply (Hunrel r r' it Hit).
      apply list_elem_of_singleton in Hr. by subst r.
    + intros Hin. apply list_elem_of_singleton in Hin. discriminate Hin.
  - apply (removeRoles_score ["toString"; "user"] Sample.store _ "admin"
             (default newRole (oget "admin" Sample.store)));
      [|exact Hkeys| |reflexivity| |reflexivity].
    + apply NoDup_cons. split; [|apply NoDup_singleton].
      intros Hin. apply list_elem_of_singleton in Hin. discriminate Hin.
    + intros r r' it Hr _ Hit. apply (Hunrel r r' it Hit).
      apply elem_of_cons in Hr as [->|Hr]; [done|].
      apply list_elem_of_singleton in Hr. by subst r.
    + intros Hin. apply elem_of_cons in Hin as [Hin|Hin]; [discriminate Hin|].
      apply list_elem_of_singleton in Hin. discriminate Hin.
Defined.

(** ** getRoles and hasRole *)


Lemma okeys_odelete {X : Type} (o : list (string * X)) r :
  okeys (odelete r o) = filter (λ k, k ≠ r) (okeys o).
Proof.
  unfold okeys. induction o as [|[k v] o IH]; [done|].
  cbn [odelete]. rewrite (fmap_cons fst), filter_cons. cbn [fst].
  destruct (String.eqb_spec r k) as [->|Hne].
  - rewrite decide_False by (by intros ?). exact IH.
  - rewrite decide_True by done. rewrite (fmap_cons fst). cbn [fst]. by rewrite IH.
Qed.

Lemma forEach_delete_keys rs :
  ∀ g g' : Store,
    forEach rs (λ role g'', Done (odelete role g'')) g = Done g' →
    okeys g' = filter (λ k, k ∉ rs) (okeys g).
Proof.
  induction rs as [|r rs IH]; intros g g'; simpl.
  - intros [= <-]. induction (okeys g) as [|k ks IHks]; [done|].
    rewrite filter_cons_True by inversion 1. by rewrite <-IHks.
  - intros Hloop. rewrite (IH _ _ Hloop), okeys_odelete, list_filter_filter.
    apply list_filter_iff. intros k. rewrite not_elem_of_cons. tauto.
Qed.

(** X14. When [removeRoles] completes, [getRoles] lists the roles it listed
    before, in the same order, without the removed ones. *)
Theorem getRoles_after_removeRoles :
  ∀ (roles : list string) (g g' : Store),
    AccessControl.removeRoles roles g = Done g' →
    AccessControl.getRoles g'
    = filter (λ k, k ∉ roles) (AccessControl.getRoles g).
Proof.
  intros roles g g' Hrun. unfold AccessControl.getRoles.
  unfold AccessControl.removeRoles in Hrun.
  pose proof (each_trimmed g (sort roles) (okeys g)) as Htr.
  destruct (forEach (okeys g) (AccessControl.stripAll (sort roles)) g) as [g1|e g1];
    [|done].
  destruct Htr as [<- _]. rewrite (forEach_delete_keys _ _ _ Hrun).
  apply list_filter_iff. intros k. by rewrite sort_elem.
Qed.

Lemma getRoles_after_removeRoles_witness :
  AccessControl.getRoles (final (AccessControl.removeRoles ["user"] Sample.store))
  = filter (λ k, k ∉ ["user"]) (AccessControl.getRoles Sample.store).
Proof. apply getRoles_after_removeRoles. reflexivity. Defined.

(** X15. Nothing to remove: when the store holds none of the roles given and
    no role lists any of them (the empty list of roles is such a case),
    [removeRoles] completes and leaves the store as it is. *)
Theorem removeRoles_unknown_roles :
  ∀ (roles : list string) (g : Store),
    (∀ r, r ∈ roles → oget r g = None) →
    (∀ k item r, oget k g = Some item → r ∈ roles → lists item r = false) →
    AccessControl.removeRoles roles g = Done g.
Proof.
  intros roles g Hgone Hclean. apply removeRoles_fixed; [done|].
  intros k item r Hk Hr.
  destruct (proj1 (lists_false item r) (Hclean k item r Hk Hr)) as [Hext|[Hnone Hp]].
  - split; [unfold extension; by rewrite Hext|].
    rewrite Hext. by intros [? ?].
  - split; [done|]. congruence.
Qed.

Lemma removeRoles_unknown_roles_witness :
  AccessControl.removeRoles ["guest"] Sample.store = Done Sample.store.
Proof.
  apply removeRoles_unknown_roles.
  - intros r Hr. apply list_elem_of_singleton in Hr. by subst r.
  - intros k item r Hk Hr. apply list_elem_of_singleton in Hr. subst r.
    apply oget_elem in Hk. apply elem_of_cons in Hk as [Hk|Hk].
    + by injection Hk as -> ->.
    + apply list_elem_of_singleton in Hk. by injection Hk as -> ->.
Defined.
